(** * bigint-toolkit: a shallow embedding of the BigInt helpers

    The library works on JavaScript [BigInt] values.  They are modelled
    as [Z]: [BigInt] has no overflow, its [/] truncates towards zero
    ([Z.quot]) and its [%] takes the sign of the dividend ([Z.rem]).
    A [throw new Error(msg)] is modelled as [Throw msg].

    JavaScript raises a [RangeError] on a [BigInt] division by zero,
    whereas [Z.quot] and [Z.rem] are total.  Every division below is
    guarded in the source by a test of its divisor ([a === 0n] in
    [eGcd], [m <= 0n] in [toZn], which [modPow] calls before it
    divides) or has a divisor that cannot be zero (the counter of
    [phi] starts at [2n] and grows), so the two agree wherever the code
    divides. *)

From Stdlib Require Import ZArith Zdivisibility Lia Bool List String Ascii.
From Stdlib Require Import HexString BinaryString DecimalString.
From Equations Require Import Equations.
From stdpp Require Import base option list gmap.

Import ListNotations.
Local Open Scope Z_scope.

(** * The model *)

(** ** Exceptions *)

Inductive result (A : Type) : Type :=
| Ok (a : A)
| Throw (msg : string).

Arguments Ok {A} a.
Arguments Throw {A} msg.

Definition bind {A B : Type} (r : result A) (k : A -> result B) : result B :=
  match r with
  | Ok a => k a
  | Throw msg => Throw msg
  end.

Notation "'let?' x ':=' r 'in' k" := (bind r (fun x => k))
  (at level 10, x name, r at level 100, k at level 200).

Definition throws {A : Type} (r : result A) : bool :=
  match r with
  | Ok _ => false
  | Throw _ => true
  end.

(** ** math: abs, eGcd, toZn, modInv *)

(** [abs(num)]: [if (num < 0n) num *= -1n; return num]. *)
Definition abs (num : Z) : Z :=
  if num <? 0 then num * -1 else num.

(** The object [{g, x, y}] returned by [eGcd]. *)
Module EGcd.
Record t : Type := mk { g : Z; x : Z; y : Z }.
End EGcd.

(** [eGcd(a, b)]: the recursive call is on [(b % a, a)], whose first
    component is smaller in absolute value than [a]. *)
Equations eGcd (a b : Z) : EGcd.t by wf (Z.abs_nat a) lt :=
eGcd a b with Z.eq_dec a 0 := {
  | left _ => EGcd.mk b 0 1
  | right _ =>
      let r := eGcd (Z.rem b a) a in
      EGcd.mk (EGcd.g r) (EGcd.y r - Z.quot b a * EGcd.x r) (EGcd.x r)
  }.
Next Obligation.
  intros. pose proof (Z.rem_bound_abs b a ltac:(assumption)). lia.
Defined.

(** [toZn(a, m)]: throws when [m <= 0n]. *)
Definition toZn (a m : Z) : result Z :=
  if m <=? 0 then Throw "m must be > 0"
  else
    let aZm := Z.rem a m in
    Ok (if aZm <? 0 then aZm + m else aZm).

(** [mod(a, m)], an alias of [toZn]. *)
Definition mod_ (a m : Z) : result Z := toZn a m.

(** [modInv(a, m)]. *)
Definition modInv (a m : Z) : result Z :=
  let? a' := toZn a m in
  let egcd := eGcd a' m in
  if negb (EGcd.g egcd =? 1) then Throw "Modular inverse does not exist"
  else toZn (EGcd.x egcd) m.

(** [negate(num)]: [-abs(num)]. *)
Definition negate (num : Z) : Z := - abs num.

(** ** math: isOdd, modPow *)

(** [isOdd(n)]: [(n % 2n) === 1n]. *)
Definition isOdd (n : Z) : bool := Z.rem n 2 =? 1.

(** The [while (exp > 0n)] loop of [modPow]; [exp] is halved by each
    iteration. *)
Equations modPow_loop (base exp r m : Z) : Z by wf (Z.to_nat exp) lt :=
modPow_loop base exp r m with Z_gt_dec exp 0 := {
  | right _ => r
  | left _ =>
      if base =? 0 then 0
      else
        let r' := if isOdd exp then Z.rem (r * base) m else r in
        modPow_loop (Z.rem (base * base) m) (Z.quot exp 2) r' m
  }.
Next Obligation.
  intros. pose proof (Z.quot_lt exp 2). lia.
Defined.

(** [modPow(base, exp, m)]; it calls itself once, on [abs(exp)], when
    [exp] is negative. *)
Equations modPow (base exp m : Z) : result Z
  by wf (if exp <? 0 then 1%nat else 0%nat) lt :=
modPow base exp m with Z.eq_dec m 0 := {
  | left _ => Throw "Cannot modPow with modulus 0"
  | right _ with Z.eq_dec exp 0 := {
    | left _ => Ok 1
    | right _ with toZn base m := {
      | Throw msg => Throw msg
      | Ok base' with Z_lt_dec exp 0 := {
        | left _ => let? p := modPow base' (abs exp) m in modInv p m
        | right _ => Ok (modPow_loop base' exp 1 m)
        }
      }
    }
  }.
Next Obligation.
  intros. unfold abs.
  destruct (Z.ltb_spec exp 0); [|lia].
  destruct (Z.ltb_spec (exp * -1) 0); lia.
Defined.

(** ** math: phi *)

(** The inner [while (n % i === 0n) n /= i] of [phi]; it returns the
    final [n], or [None] when the fuel runs out. *)
Fixpoint phi_while (fuel : nat) (n i : Z) : option Z :=
  if Z.rem n i =? 0 then
    match fuel with
    | O => None
    | S fuel' => phi_while fuel' (Z.quot n i) i
    end
  else Some n.

(** The [for (let i = 2n; i * i <= n; i++)] loop of [phi], started at
    [i]; it returns the final [(n, result)]. *)
Fixpoint phi_for (fuel : nat) (n result i : Z) : option (Z * Z) :=
  if i * i <=? n then
    match fuel with
    | O => None
    | S fuel' =>
        if Z.rem n i =? 0 then
          match phi_while (Z.to_nat n) n i with
          | None => None
          | Some n' => phi_for fuel' n' (result - Z.quot result i) (i + 1)
          end
        else phi_for fuel' n result (i + 1)
    end
  else Some (n, result).

(** [phi(n)]. *)
Definition phi (n : Z) : option Z :=
  match phi_for (Z.to_nat n) n n 2 with
  | None => None
  | Some (n', result) =>
      Some (if n' >? 1 then result - Z.quot result n' else result)
  end.

(** Euler's totient as the specification words it: the number of
    integers of [[1, n]] that are coprime to [n]. *)
Definition coprimeb (n k : Z) : bool := Z.gcd k n =? 1.

Definition range1 (n : nat) : list Z := map Z.of_nat (seq 1 n).

Definition count_coprime (m : Z) (n : nat) : nat :=
  length (List.filter (coprimeb m) (range1 n)).

Definition totient (n : Z) : Z := Z.of_nat (count_coprime n (Z.to_nat n)).

(** ** Strings of digits *)

(** [BigInt.prototype.toString(16)] and [Number.prototype.toString(16)]
    on an integer: lower-case digits, a leading [-] for a negative
    number. *)
Definition toString16 (n : Z) : string :=
  match n with
  | Z0 => "0"
  | Zpos p => HexString.Raw.of_pos p ""
  | Zneg p => String "-" (HexString.Raw.of_pos p "")
  end.

(** [BigInt.prototype.toString(2)]. *)
Definition toString2 (n : Z) : string :=
  match n with
  | Z0 => "0"
  | Zpos p => BinaryString.Raw.of_pos p ""
  | Zneg p => String "-" (BinaryString.Raw.of_pos p "")
  end.

(** [s.padStart(n, c)] for a one-character filler. *)
Definition padStart (n : nat) (c : ascii) (s : string) : string :=
  String.append (string_of_list_ascii (repeat c (n - String.length s))) s.

Definition isHexDigit (ch : ascii) : bool :=
  match HexString.ascii_to_digit ch with
  | Some _ => true
  | None => false
  end.

Fixpoint allHexDigits (s : string) : bool :=
  match s with
  | EmptyString => true
  | String ch s' => isHexDigit ch && allHexDigits s'
  end.

(** [BigInt(s)] for a string [s] of the form ["0x" + digits] without
    white space around it (the host trims it; the outputs of
    [toString(16)] have none): a [SyntaxError] when there is no digit or
    a character is not a hexadecimal digit. *)
Definition BigInt_of_string (s : string) : result Z :=
  match s with
  | String "0" (String "x" digits) =>
      if (negb (String.length digits =? 0)%nat) && allHexDigits digits
      then Ok (Z.of_N (HexString.Raw.to_N digits 0))
      else Throw "SyntaxError: Cannot convert to a BigInt"
  | _ => Throw "SyntaxError: Cannot convert to a BigInt"
  end.

(** The longest prefix of hexadecimal digits of [s], read as a number;
    [acc] is [None] until a digit has been read. *)
Fixpoint hexPrefix (s : string) (acc : option Z) : option Z :=
  match s with
  | EmptyString => acc
  | String ch s' =>
      match HexString.ascii_to_digit ch with
      | Some d => hexPrefix s' (Some (Z.of_N d + 16 * default 0 acc))
      | None => acc
      end
  end.

(** [parseInt(s, 16)] on a slice of a [toString(16)] output (no white
    space, no [0x] prefix); [None] is [NaN]. *)
Definition parseInt16 (s : string) : option Z :=
  match s with
  | EmptyString => None
  | String ch s' =>
      if (ch =? "-")%char then option_map Z.opp (hexPrefix s' None)
      else if (ch =? "+")%char then hexPrefix s' None
      else hexPrefix s None
  end.

(** The first character of [s] is not ["0"]. *)
Definition leadingNonzero (s : string) : bool :=
  match s with
  | EmptyString => false
  | String ch _ => negb (ch =? "0")%char
  end.

(** The conversion applied by a store into a [Uint8Array]: [NaN]
    becomes [0], an integer is reduced modulo 256. *)
Definition toUint8 (v : option Z) : Z :=
  match v with
  | None => 0
  | Some n => n mod 256
  end.

(** ** math: random *)

(** [randomBytes(bufferSize)] draws from the platform's entropy source.
    The source is modelled as the tape of the bytes it will supply, in
    order; a call takes the first [bufferSize] of them, and [None]
    means that the tape holds too few. *)
Definition randomBytes (bufferSize : nat) (tape : list Z)
  : option (list Z * list Z) :=
  if (bufferSize <=? length tape)%nat
  then Some (take bufferSize tape, drop bufferSize tape)
  else None.

(** The string built by [buffer.forEach], from ['0x']. *)
Definition hexStringOf (buffer : list Z) : string :=
  fold_left
    (fun hexString byte =>
       String.append hexString (padStart 2 "0" (toString16 byte)))
    buffer "0x"%string.

(** The [do ... while (result > diff)] loop of [random].  In
    [1n << BigInt(diffLength) - 1n] the subtraction binds tighter than
    the shift, so the mask is [1n << (diffLength - 1)]. *)
Fixpoint random_loop (fuel : nat) (diff : Z) (diffLength : nat)
    (tape : list Z) : option (result Z) :=
  match fuel with
  | O => None
  | S fuel' =>
      let byteSize := ((diffLength + 7) / 8)%nat in
      match randomBytes byteSize tape with
      | None => None
      | Some (buffer, tape') =>
          match BigInt_of_string (hexStringOf buffer) with
          | Throw msg => Some (Throw msg)
          | Ok v =>
              let result :=
                Z.land v (Z.shiftl 1 (Z.of_nat diffLength - 1)) in
              if result >? diff
              then random_loop fuel' diff diffLength tape'
              else Some (Ok result)
          end
      end
  end.

(** [random(start, end)] on an entropy tape: [None] when the tape is
    used up before a draw is accepted. *)
Definition random (start end_ : Z) (tape : list Z) : option (result Z) :=
  if start >? end_ then Some (Throw "Start must be less than end")
  else
    let diff := end_ - start + 1 in
    let diffLength := String.length (toString2 diff) in
    match random_loop (S (length tape)) diff diffLength tape with
    | Some (Ok result) => Some (Ok (start + result))
    | other => other
    end.

(** ** Conversions: bigintToUint8 *)

(** [hexPadZero(hex)]. *)
Definition hexPadZero (hex : string) : string :=
  if negb (String.length hex mod 2 =? 0)%nat then String "0" hex else hex.

(** [bigintToHex(num, padZero)]. *)
Definition bigintToHex (num : Z) (padZero : bool) : string :=
  let hexString := toString16 num in
  if negb padZero then hexString else hexPadZero hexString.

(** [bigintToHexPadZero(num)]. *)
Definition bigintToHexPadZero (num : Z) : string := bigintToHex num true.

(** [hexToUint8(hex)]: a fresh array of [hex.length / 2] bytes, the
    [i]-th parsed from the two characters at [2 * i].  Its callers pass
    a string of even length; for an odd one the array constructor
    truncates the fractional length and the store of the extra iteration
    falls past the end, where a typed array ignores it. *)
Definition hexToUint8 (hex : string) : list Z :=
  let numBytes := (String.length hex / 2)%nat in
  map (fun i => toUint8 (parseInt16 (substring (2 * i) 2 hex)))
      (seq 0 numBytes).

(** [bigintToUint8(num, handleNegative)]. *)
Definition bigintToUint8 (num : Z) (handleNegative : bool)
  : result (list Z) :=
  let? num :=
    if num <? 0 then
      if handleNegative then
        let bits :=
          (Z.quot (Z.of_nat (String.length (toString2 num))) 8 + 1) * 8 in
        let prefix1 := Z.shiftl 1 bits in
        Ok (num + prefix1)
      else Throw "BigInt should larger than 0 to convert to Uint8Array"
    else Ok num
  in Ok (hexToUint8 (bigintToHexPadZero num)).

(** ** Conversions: uint8ToBigint *)

(** [bytes[i]] read as a number; an index past the end gives
    [undefined], which the bitwise operators read as [0]. *)
Definition byteAt (bytes : list Z) (i : nat) : Z := default 0 (bytes !! i).

(** [for (i = 0; i < bytes.length; i++) bytes[i] = ~bytes[i] & 0xff]. *)
Definition invert_loop (bytes : list Z) : list Z :=
  fold_left
    (fun bytes i => <[i := Z.land (Z.lnot (byteAt bytes i)) 0xff]> bytes)
    (seq 0 (length bytes)) bytes.

(** [for (i = bytes.length - 1; i >= 0 && carry > 0; i--)], entered
    with [i + 1 = n]. *)
Fixpoint carry_loop (n : nat) (carry : Z) (bytes : list Z) : list Z :=
  match n with
  | O => bytes
  | S i =>
      if carry >? 0 then
        let value := byteAt bytes i + carry in
        carry_loop i (Z.shiftr value 8) (<[i := Z.land value 0xff]> bytes)
      else bytes
  end.

(** The body of [uint8ToBigint] on the contents of its argument: the
    value returned and the contents the array is left with. *)
Definition uint8ToBigint_body (bytes : list Z) (handleNegative : bool)
  : Z * list Z :=
  let isNegative :=
    handleNegative && negb (Z.land (byteAt bytes 0) 0x80 =? 0) in
  let bytes :=
    if isNegative then carry_loop (length bytes) 1 (invert_loop bytes)
    else bytes in
  let result := fold_left (fun result b => Z.shiftl result 8 + b) bytes 0 in
  (if isNegative then - result else result, bytes).

(** A [Uint8Array] is a reference: the heap maps the storage of an
    array to its contents, and two variables that hold the same
    location alias.  Arrays that are views of overlapping parts of one
    [ArrayBuffer] are not represented, so the heap says what a call
    does to its argument and nothing about what it leaves alone. *)
Definition loc : Type := positive.

(** [uint8ToBigint(bytes, handleNegative)] on the heap: the assignments
    [bytes[i] = ...] write into the caller's array. *)
Definition uint8ToBigint (bytes : loc) (handleNegative : bool)
    (h : gmap loc (list Z)) : option (Z * gmap loc (list Z)) :=
  match h !! bytes with
  | None => None
  | Some contents =>
      let '(result, contents') := uint8ToBigint_body contents handleNegative in
      Some (result, <[bytes := contents']> h)
  end.

(** [uint8ToBigintWithNegative(bytes)]. *)
Definition uint8ToBigintWithNegative (bytes : loc) (h : gmap loc (list Z))
  : option (Z * gmap loc (list Z)) :=
  uint8ToBigint bytes true h.

(** ** Specification-side notions *)

(** The number a big-endian byte sequence denotes. *)
Definition bigEndian (bytes : list Z) : Z :=
  fold_left (fun acc b => acc * 256 + b) bytes 0.

(** [v] has a two's-complement representation on [k] bytes. *)
Definition fitsTwosComplement (k : Z) (v : Z) : Prop :=
  0 < k /\ - 2 ^ (8 * k - 1) <= v < 2 ^ (8 * k - 1).

(** [bytes] is a two's-complement representation of [v]. *)
Definition twosComplementOf (v : Z) (bytes : list Z) : Prop :=
  Forall (fun b => 0 <= b < 256) bytes /\
  fitsTwosComplement (Z.of_nat (length bytes)) v /\
  bigEndian bytes = v mod 2 ^ (8 * Z.of_nat (length bytes)).

(** ... and no shorter sequence is one. *)
Definition minimalTwosComplementOf (v : Z) (bytes : list Z) : Prop :=
  twosComplementOf v bytes /\
  forall k, fitsTwosComplement k v -> Z.of_nat (length bytes) <= k.

(** ** math: gcd, lcm, isEven, isUnit, max, min, modAdd, modMultiply *)

(** [a / b] and [a % b] where the source does not test the divisor:
    the host throws a [RangeError] on a zero divisor. *)
Definition divide (a b : Z) : result Z :=
  if b =? 0 then Throw "RangeError: Division by zero" else Ok (Z.quot a b).

Definition remainder (a b : Z) : result Z :=
  if b =? 0 then Throw "RangeError: Division by zero" else Ok (Z.rem a b).

(** [gcd(a, b)]: [if (b === 0n) return a; return gcd(b, a % b)]. *)
Equations gcd (a b : Z) : Z by wf (Z.abs_nat b) lt :=
gcd a b with Z.eq_dec b 0 := {
  | left _ => a
  | right _ => gcd b (Z.rem a b)
  }.
Next Obligation.
  intros. pose proof (Z.rem_bound_abs a b ltac:(assumption)). lia.
Defined.

(** [lcm(a, b)]: [(a / gcd(a, b)) * b]. *)
Definition lcm (a b : Z) : result Z :=
  let? q := divide a (gcd a b) in Ok (q * b).

(** [isEven(n)]: [!isOdd(n)]. *)
Definition isEven (n : Z) : bool := negb (isOdd n).

(** [isUnit(n)]: [abs(n) === 1n]. *)
Definition isUnit (n : Z) : bool := abs n =? 1.

(** [max(...nums)] and [min(...nums)]: [reduce] without an initial
    value takes the first element as the accumulator and throws a
    [TypeError] on an empty array. *)
Module BigMath.

Definition max (nums : list Z) : result Z :=
  match nums with
  | [] => Throw "TypeError: Reduce of empty array with no initial value"
  | first :: rest =>
      Ok (fold_left (fun acc current => if current >? acc then current else acc)
                    rest first)
  end.

Definition min (nums : list Z) : result Z :=
  match nums with
  | [] => Throw "TypeError: Reduce of empty array with no initial value"
  | first :: rest =>
      Ok (fold_left (fun acc current => if current <? acc then current else acc)
                    rest first)
  end.

End BigMath.

(** [modAdd(a, b, mod)]: [((a % mod) + (b % mod)) % mod]. *)
Definition modAdd (a b modulus : Z) : result Z :=
  let? x := remainder a modulus in
  let? y := remainder b modulus in
  remainder (x + y) modulus.

(** [modMultiply(a, b, mod)]: [((a % mod) * (b % mod)) % mod]. *)
Definition modMultiply (a b modulus : Z) : result Z :=
  let? x := remainder a modulus in
  let? y := remainder b modulus in
  remainder (x * y) modulus.

(** ** math: crt *)

(** The [for] loop of [crt], from index [i] on: [num] and [rem] are
    what is left of the two arrays.  [rem[i]] past the end of [rem] is
    [undefined], and the product of [undefined] and a [BigInt] is a
    [TypeError], raised after [modInv] has been called. *)
Fixpoint crt_loop (prod : Z) (num rem : list Z) (sum : Z) : result Z :=
  match num with
  | [] => Ok sum
  | n :: num' =>
      let? p := divide prod n in
      let? inv := modInv p n in
      match rem with
      | [] => Throw "TypeError: Cannot mix BigInt and other types"
      | r :: rem' => crt_loop prod num' rem' (sum + r * inv * p)
      end
  end.

(** [crt(num, rem)]. *)
Definition crt (num rem : list Z) : result Z :=
  let prod := fold_left (fun acc val => acc * val) num 1 in
  let? sum := crt_loop prod num rem 0 in
  remainder sum prod.

(** ** Conversions: hexToBigint, toBigint, uint8ToHex *)

(** [hexToBigint(hex)], for a string without white space (which
    [BigInt] would trim). *)
Definition hexToBigint (hex : string) : result Z :=
  let isNegative := String.prefix "-" hex in
  let hex := if isNegative then substring 1 (String.length hex - 1) hex
             else hex in
  let? result := BigInt_of_string (String.append "0x" hex) in
  Ok (if isNegative then - result else result).

(** The value of a digit or letter, as [parseInt] reads it. *)
Definition digit36 (ch : ascii) : option Z :=
  let c := Z.of_nat (nat_of_ascii ch) in
  if (48 <=? c) && (c <=? 57) then Some (c - 48)
  else if (97 <=? c) && (c <=? 122) then Some (c - 87)
  else if (65 <=? c) && (c <=? 90) then Some (c - 55)
  else None.

(** The conversion of a radix to a 32-bit integer. *)
Definition toInt32 (n : Z) : Z := (n + 2 ^ 31) mod 2 ^ 32 - 2 ^ 31.

(** [parseInt(ch, radix)] on a string of one character: [None], for
    [NaN], unless the character is a digit of the radix; a radix of
    [0] stands for [10], and one outside [[2, 36]] gives [NaN]. *)
Definition parseIntChar (ch : ascii) (radix : Z) : option Z :=
  let R := if toInt32 radix =? 0 then 10 else toInt32 radix in
  if (R <? 2) || (36 <? R) then None
  else
    match digit36 ch with
    | Some d => if d <? R then Some d else None
    | None => None
    end.

(** The last branch of [toBigint(num, from)], taken for a string [num]
    and a radix [from] other than 10 and 16: the loop over the
    characters of [num], from the accumulator [decimalValue].  The
    message prints the radix in decimal digits, as the host does for a
    radix below [10 ^ 21]. *)
Fixpoint toBigint_loop (num : string) (from : Z) (decimalValue : Z)
  : result Z :=
  match num with
  | EmptyString => Ok decimalValue
  | String ch num' =>
      match parseIntChar ch from with
      | None =>
          Throw (String.append "Invalid character for base: "
                   (DecimalString.NilZero.string_of_int (Z.to_int from)))
      | Some digit => toBigint_loop num' from (decimalValue * from + digit)
      end
  end.

(** [toBigint(num, from)] for a string [num] and [from] other than 10. *)
Definition toBigint_radix (num : string) (from : Z) : result Z :=
  if from =? 16 then hexToBigint num else toBigint_loop num from 0.

(** [uint8ToHex(bytes, handleNegative)] on the heap. *)
Definition uint8ToHex (bytes : loc) (handleNegative : bool)
    (h : gmap loc (list Z)) : option (string * gmap loc (list Z)) :=
  match uint8ToBigint bytes handleNegative h with
  | None => None
  | Some (n, h') => Some (bigintToHex n false, h')
  end.

(** [uint8ToHexWithNegative(bytes)]. *)
Definition uint8ToHexWithNegative (bytes : loc) (h : gmap loc (list Z))
  : option (string * gmap loc (list Z)) :=
  match uint8ToBigintWithNegative bytes h with
  | None => None
  | Some (n, h') => Some (bigintToHex n false, h')
  end.

(** ** Notions used by the proofs *)

(** The value of a hexadecimal digit, [0] for any other character. *)
Definition digitZ (ch : ascii) : Z :=
  match HexString.ascii_to_digit ch with
  | Some d => Z.of_N d
  | None => 0
  end.

(** The complement of a byte, as the first loop of the decoder
    computes it. *)
Definition invert (b : Z) : Z := Z.land (Z.lnot b) 0xff.

(** The number of integers of [[1, N]] that satisfy [P]. *)
Fixpoint cnt (P : Z -> bool) (N : nat) : Z :=
  match N with
  | O => 0
  | S N' => cnt P N' + (if P (Z.of_nat (S N')) then 1 else 0)
  end.

(** What the outer loop maintains: [m] collects the prime powers
    already divided out of the argument [N], [n] is what is left of it
    and has no divisor in [[2, i)], and [result] is [n] times the
    totient of [m]. *)
Record phi_invariant (N n result i m : Z) : Prop := {
  inv_n : 1 <= n;
  inv_i : 2 <= i;
  inv_m : 1 <= m;
  inv_product : N = m * n;
  inv_coprime : Z.coprime m n;
  inv_sieved : forall d, 2 <= d < i -> ~ (d | n);
  inv_result : result = n * totient m
}.

(** The product [num.reduce((acc, val) => acc * val, 1n)]. *)
Definition product (l : list Z) : Z :=
  fold_left (fun acc val => acc * val) l 1.

(** The moduli are coprime two by two. *)
Definition pairwiseCoprime (num : list Z) : Prop :=
  forall (i j : nat) (a b : Z),
    i <> j -> num !! i = Some a -> num !! j = Some b -> Z.coprime a b.

(** In [crt], with [P] the product of the moduli, a modulus [n] other
    than [K]: its term of the sum is a multiple of [K]. *)
Definition otherModulus (P K n : Z) : Prop :=
  0 < n /\ Z.coprime (Z.quot P n) n /\ (K | Z.quot P n).

(** Case analysis on the 256 characters. *)
Ltac each_ascii c := destruct c as [[] [] [] [] [] [] [] []].

(** * Examples from the test suite and the documentation *)

(** The documentation of [eGcd] announces [x = -3], [y = 5] for
    [(16, 10)]; the code returns another Bezout pair. *)
Example eGcd_16_10 : eGcd 16 10 = EGcd.mk 2 2 (-3).
Proof. reflexivity. Qed.

Example bigintToUint8_pos :
  bigintToUint8 123456789 true = Ok [7; 91; 205; 21].
Proof. reflexivity. Qed.

Example bigintToUint8_neg :
  bigintToUint8 (-123456789) true = Ok [248; 164; 50; 235].
Proof. reflexivity. Qed.

Example bigintToUint8_zero : bigintToUint8 0 true = Ok [0].
Proof. reflexivity. Qed.

Example uint8ToBigint_pos :
  fst (uint8ToBigint_body [7; 91; 205; 21] true) = 123456789.
Proof. reflexivity. Qed.

Example uint8ToBigint_neg :
  fst (uint8ToBigint_body [248; 164; 50; 235] true) = -123456789.
Proof. reflexivity. Qed.

Example modPow_3_5_7 : modPow 3 5 7 = Ok 5.
Proof. reflexivity. Qed.

Example modInv_4_8 : modInv 4 8 = Throw "Modular inverse does not exist".
Proof. reflexivity. Qed.

Example phi_36 : phi 36 = Some 12.
Proof. reflexivity. Qed.

Example random_0_0 : random 0 0 [1] = Some (Ok 1).
Proof. reflexivity. Qed.

(** * Properties *)

(** ** abs and negate *)

Lemma abs_eq (n : Z) : abs n = Z.abs n.
Proof. unfold abs. destruct (Z.ltb_spec n 0); lia. Qed.

(** C10: [negate n] is [- |n|]; it is never positive, it leaves a
    negative number unchanged, and it is therefore not an involution
    ([negate (-5) = -5], and negating [5] twice gives [-5]). *)
Theorem negate_is_minus_abs (n : Z) :
  negate n = - Z.abs n /\
  negate n <= 0 /\
  (n < 0 -> negate n = n) /\
  negate (-5) = -5 /\
  negate (negate 5) <> 5.
Proof.
  unfold negate. rewrite abs_eq.
  repeat split; try lia; vm_compute; congruence.
Qed.

Lemma negate_is_minus_abs_witness :
  -5 < 0 /\ negate (-5) = -5.
Proof.
  split; [lia|].
  apply (proj1 (proj2 (proj2 (negate_is_minus_abs (-5))))). lia.
Defined.

(** ** eGcd *)

Lemma eGcd_zero (b : Z) : eGcd 0 b = EGcd.mk b 0 1.
Proof. now simp eGcd. Qed.

Lemma eGcd_step (a b : Z) :
  a <> 0 ->
  eGcd a b =
    let r := eGcd (Z.rem b a) a in
    EGcd.mk (EGcd.g r) (EGcd.y r - Z.quot b a * EGcd.x r) (EGcd.x r).
Proof.
  intros Ha. etransitivity; [apply eGcd_equation_1|].
  destruct (Z.eq_dec a 0); [contradiction|]. reflexivity.
Qed.

Lemma eGcd_identity (a b : Z) :
  a * EGcd.x (eGcd a b) + b * EGcd.y (eGcd a b) = EGcd.g (eGcd a b).
Proof.
  funelim (eGcd a b).
  - simpl. lia.
  - simpl. pose proof (Z.quot_rem' b a) as Hb.
    rewrite <- H. nia.
Qed.

Lemma eGcd_abs_g (a b : Z) : Z.abs (EGcd.g (eGcd a b)) = Z.gcd a b.
Proof.
  funelim (eGcd a b).
  - subst a. simpl. symmetry. apply Z.gcd_0_l.
  - simpl. rewrite H.
    pose proof (Z.quot_rem' b a) as Hb.
    replace (Z.rem b a) with (b + (- Z.quot b a) * a) by lia.
    rewrite Z.gcd_comm. apply Z.gcd_add_mult_diag_r.
Qed.

Lemma eGcd_g_nonneg (a b : Z) :
  0 <= a -> 0 <= b -> 0 <= EGcd.g (eGcd a b).
Proof.
  funelim (eGcd a b); intros Ha Hb.
  - simpl. lia.
  - simpl. apply H; [|lia]. apply Z.rem_nonneg; lia.
Qed.

(** C5: [eGcd] follows the stated recursion, on the host's truncating
    [%] and [/], and its result satisfies the Bezout identity
    [a * x + b * y = g] for all integers [a] and [b]. *)
Theorem eGcd_recursion_bezout (a b : Z) :
  eGcd 0 b = EGcd.mk b 0 1 /\
  (a <> 0 ->
   eGcd a b =
     let r := eGcd (Z.rem b a) a in
     EGcd.mk (EGcd.g r) (EGcd.y r - Z.quot b a * EGcd.x r) (EGcd.x r)) /\
  a * EGcd.x (eGcd a b) + b * EGcd.y (eGcd a b) = EGcd.g (eGcd a b).
Proof.
  split; [apply eGcd_zero|].
  split; [apply eGcd_step|apply eGcd_identity].
Qed.

Lemma eGcd_recursion_bezout_witness :
  16 <> 0 /\
  eGcd 16 10 =
    (let r := eGcd (Z.rem 10 16) 16 in
     EGcd.mk (EGcd.g r) (EGcd.y r - Z.quot 10 16 * EGcd.x r) (EGcd.x r)).
Proof.
  split; [lia|].
  apply (proj1 (proj2 (eGcd_recursion_bezout 16 10))). lia.
Defined.

(** C8, as stated, fails: [eGcd 0 (-5)] has [g = -5]. *)
Lemma eGcd_g_can_be_negative :
  ~ (forall a b : Z, (a, b) <> (0, 0) -> 0 <= EGcd.g (eGcd a b)).
Proof.
  intros H. specialize (H 0 (-5)).
  assert (Hg : EGcd.g (eGcd 0 (-5)) = -5) by reflexivity.
  rewrite Hg in H. apply Z.le_ngt in H; [|congruence]. apply H. lia.
Qed.

(** C8, amended: the absolute value of [g] is the gcd of the inputs,
    and [g] itself is non-negative (so equal to the gcd) when neither
    input is negative. *)
Theorem eGcd_g_sign (a b : Z) :
  Z.abs (EGcd.g (eGcd a b)) = Z.gcd a b /\
  (0 <= a -> 0 <= b ->
   0 <= EGcd.g (eGcd a b) /\ EGcd.g (eGcd a b) = Z.gcd a b).
Proof.
  split; [apply eGcd_abs_g|].
  intros Ha Hb. pose proof (eGcd_g_nonneg a b Ha Hb) as Hg.
  split; [exact Hg|]. rewrite <- eGcd_abs_g. lia.
Qed.

Lemma eGcd_g_sign_witness :
  0 <= 16 /\ 0 <= 10 /\
  0 <= EGcd.g (eGcd 16 10) /\ EGcd.g (eGcd 16 10) = Z.gcd 16 10.
Proof.
  split; [lia|]. split; [lia|].
  apply (proj2 (eGcd_g_sign 16 10)); lia.
Defined.

(** ** toZn and modInv *)

Lemma toZn_pos (a m : Z) : 0 < m -> toZn a m = Ok (a mod m).
Proof.
  intros Hm. unfold toZn.
  destruct (Z.leb_spec m 0); [lia|]. f_equal.
  pose proof (Z.quot_rem' a m) as Ha.
  pose proof (Z.rem_bound_abs a m ltac:(lia)) as Hr.
  destruct (Z.ltb_spec (Z.rem a m) 0).
  - apply (Z.mod_unique_pos a m (Z.quot a m - 1)); lia.
  - apply (Z.mod_unique_pos a m (Z.quot a m)); lia.
Qed.

Lemma toZn_nonpos (a m : Z) : m <= 0 -> toZn a m = Throw "m must be > 0".
Proof.
  intros Hm. unfold toZn. destruct (Z.leb_spec m 0); [reflexivity|lia].
Qed.

Lemma modInv_fails (a m : Z) :
  0 < m -> Z.gcd (a mod m) m <> 1 ->
  modInv a m = Throw "Modular inverse does not exist".
Proof.
  intros Hm Hg. unfold modInv. rewrite toZn_pos by lia. simpl.
  pose proof (Z.mod_pos_bound a m Hm) as Ha.
  pose proof (eGcd_g_nonneg (a mod m) m ltac:(lia) ltac:(lia)) as Hn.
  pose proof (eGcd_abs_g (a mod m) m) as Habs.
  destruct (Z.eqb_spec (EGcd.g (eGcd (a mod m) m)) 1); [lia|reflexivity].
Qed.

Lemma modInv_succeeds (a m : Z) :
  0 < m -> Z.gcd (a mod m) m = 1 ->
  exists x, modInv a m = Ok x /\ 0 <= x < m /\ (a * x) mod m = 1 mod m.
Proof.
  intros Hm Hg. unfold modInv. rewrite toZn_pos by lia. simpl.
  pose proof (Z.mod_pos_bound a m Hm) as Ha.
  pose proof (eGcd_g_nonneg (a mod m) m ltac:(lia) ltac:(lia)) as Hn.
  pose proof (eGcd_abs_g (a mod m) m) as Habs.
  pose proof (eGcd_identity (a mod m) m) as Hid.
  destruct (Z.eqb_spec (EGcd.g (eGcd (a mod m) m)) 1) as [Hone|]; [|lia].
  simpl. rewrite toZn_pos by lia.
  eexists. split; [reflexivity|]. split; [apply Z.mod_pos_bound; lia|].
  rewrite Z.mul_mod_idemp_r by lia.
  rewrite <- Z.mul_mod_idemp_l by lia.
  rewrite Hone in Hid.
  replace (a mod m * EGcd.x (eGcd (a mod m) m))
    with (1 + (- EGcd.y (eGcd (a mod m) m)) * m) by lia.
  apply Z_mod_plus_full.
Qed.

(** C6, as stated, fails at the modulus 1: [modInv 0 1] returns [0],
    and [(0 * 0) mod 1] is [0], not [1]. *)
Lemma modInv_modulus_one :
  ~ (forall a m a' : Z,
       0 < m -> toZn a m = Ok a' ->
       (throws (modInv a m) = true <-> Z.gcd a' m <> 1) /\
       (forall x, modInv a m = Ok x -> 0 <= x < m /\ (a * x) mod m = 1)).
Proof.
  intros H.
  destruct (H 0 1 0 ltac:(lia) ltac:(reflexivity)) as [_ Hx].
  destruct (Hx 0 ltac:(reflexivity)) as [_ Hone].
  vm_compute in Hone. congruence.
Qed.

(** C6, amended: for [m > 0], [modInv a m] throws exactly when the gcd
    of [toZn a m] and [m] is not [1]; otherwise it returns an [x] of
    [[0, m)] with [(a * x) mod m = 1 mod m], which is [1] for every
    modulus but [1] itself. *)
Theorem modInv_spec (a m : Z) :
  0 < m ->
  exists a', toZn a m = Ok a' /\
    ((Z.gcd a' m <> 1 /\
      modInv a m = Throw "Modular inverse does not exist") \/
     (Z.gcd a' m = 1 /\
      exists x, modInv a m = Ok x /\ 0 <= x < m /\
                (a * x) mod m = 1 mod m /\
                (1 < m -> (a * x) mod m = 1))).
Proof.
  intros Hm. exists (a mod m). split; [apply toZn_pos; lia|].
  destruct (Z.eq_dec (Z.gcd (a mod m) m) 1) as [Hg|Hg].
  - right. split; [exact Hg|].
    destruct (modInv_succeeds a m Hm Hg) as (x & Hx & Hb & Hinv).
    exists x. repeat split; try assumption; try lia.
    intros H1. rewrite Hinv. apply Z.mod_small. lia.
  - left. split; [exact Hg|]. apply modInv_fails; assumption.
Qed.

Lemma modInv_spec_witness :
  0 < 7 /\
  exists a', toZn 3 7 = Ok a' /\
    ((Z.gcd a' 7 <> 1 /\
      modInv 3 7 = Throw "Modular inverse does not exist") \/
     (Z.gcd a' 7 = 1 /\
      exists x, modInv 3 7 = Ok x /\ 0 <= x < 7 /\
                (3 * x) mod 7 = 1 mod 7 /\
                (1 < 7 -> (3 * x) mod 7 = 1))).
Proof.
  split; [lia|]. apply (modInv_spec 3 7). lia.
Defined.

(** ** modPow *)

Lemma isOdd_pos (n : Z) : 0 <= n -> isOdd n = Z.odd n.
Proof.
  intros Hn. unfold isOdd. rewrite Z.rem_mod_nonneg by lia.
  rewrite Zmod_odd. destruct (Z.odd n); reflexivity.
Qed.

Lemma square_pow_mod (r b e m : Z) :
  0 <= e -> 0 < m ->
  (r * ((b * b) mod m) ^ e) mod m = (r * b ^ (2 * e)) mod m.
Proof.
  intros He Hm.
  rewrite <- Z.mul_mod_idemp_r by lia. rewrite Z.mod_pow_l.
  rewrite Z.mul_mod_idemp_r by lia.
  rewrite Z.pow_mul_r by lia. rewrite Z.pow_2_r. reflexivity.
Qed.

Lemma modPow_loop_done (base exp r m : Z) :
  exp <= 0 -> modPow_loop base exp r m = r.
Proof.
  intros He. simp modPow_loop.
  destruct (Z_gt_dec exp 0); [lia|reflexivity].
Qed.

Lemma modPow_loop_step (base exp r m : Z) :
  0 < exp ->
  modPow_loop base exp r m =
    if base =? 0 then 0
    else modPow_loop (Z.rem (base * base) m) (Z.quot exp 2)
           (if isOdd exp then Z.rem (r * base) m else r) m.
Proof.
  intros He. etransitivity; [apply modPow_loop_equation_1|].
  destruct (Z_gt_dec exp 0); [reflexivity|lia].
Qed.

Section SquareAndMultiply.

Variable m : Z.
Hypothesis Hm : 0 < m.

(** The loop is square-and-multiply: from a reduced base it returns
    [r * base ^ exp] modulo [m]. *)
Lemma modPow_loop_spec (n : nat) :
  forall base exp r,
    (Z.to_nat exp <= n)%nat -> 0 < exp -> 0 <= base < m -> 0 <= r ->
    modPow_loop base exp r m = (r * base ^ exp) mod m.
Proof.
  induction n as [|n IH]; intros base exp r Hn He Hb Hr; [lia|].
  rewrite modPow_loop_step by lia.
  destruct (Z.eqb_spec base 0) as [->|Hb0].
  { rewrite Z.pow_0_l by lia. rewrite Z.mul_0_r. reflexivity. }
  assert (Hq : Z.quot exp 2 = exp / 2) by (apply Z.quot_div_nonneg; lia).
  assert (Hsq : Z.rem (base * base) m = (base * base) mod m)
    by (apply Z.rem_mod_nonneg; nia).
  rewrite Hq, Hsq, isOdd_pos by lia.
  pose proof (Z.div_mod exp 2 ltac:(lia)) as Hdm.
  pose proof (Zmod_odd exp) as Hodd.
  pose proof (Z.mod_pos_bound exp 2 ltac:(lia)) as Hmb.
  pose proof (Z.mod_pos_bound (base * base) m Hm) as Hsb.
  destruct (Z.eq_dec (exp / 2) 0) as [Hz|Hz].
  - rewrite Hz. rewrite modPow_loop_done by lia.
    destruct (Z.odd exp); [|lia].
    replace exp with 1 by lia. rewrite Z.pow_1_r.
    apply Z.rem_mod_nonneg; nia.
  - assert (0 < exp / 2) by (pose proof (Z.div_pos exp 2); lia).
    rewrite IH; try lia.
    + rewrite square_pow_mod by lia.
      destruct (Z.odd exp).
      * rewrite Z.rem_mod_nonneg by nia.
        rewrite Z.mul_mod_idemp_l by lia.
        replace (base ^ exp) with (base ^ (2 * (exp / 2)) * base).
        { f_equal. lia. }
        rewrite Z.mul_comm, <- Z.pow_succ_r by lia. f_equal. lia.
      * replace (base ^ exp) with (base ^ (2 * (exp / 2))); [reflexivity|].
        f_equal. lia.
    + destruct (Z.odd exp); [|lia]. apply Z.rem_nonneg; nia.
Qed.

End SquareAndMultiply.

Lemma modPow_zero_modulus (base exp : Z) :
  modPow base exp 0 = Throw "Cannot modPow with modulus 0".
Proof. now simp modPow. Qed.

Lemma modPow_zero_exponent (base m : Z) :
  m <> 0 -> modPow base 0 m = Ok 1.
Proof.
  intros Hm. simp modPow. destruct (Z.eq_dec m 0); [contradiction|].
  reflexivity.
Qed.

Lemma modPow_negative_modulus (base exp m : Z) :
  m < 0 -> exp <> 0 -> modPow base exp m = Throw "m must be > 0".
Proof.
  intros Hm He. simp modPow. destruct (Z.eq_dec m 0); [lia|]. simpl.
  destruct (Z.eq_dec exp 0); [contradiction|]. simpl.
  rewrite toZn_nonpos by lia. reflexivity.
Qed.

Lemma modPow_positive_exponent (base exp m : Z) :
  0 < m -> 0 < exp -> modPow base exp m = Ok (base ^ exp mod m).
Proof.
  intros Hm He. simp modPow. destruct (Z.eq_dec m 0); [lia|]. simpl.
  destruct (Z.eq_dec exp 0); [lia|]. simpl.
  rewrite toZn_pos by lia. simpl.
  destruct (Z_lt_dec exp 0); [lia|]. simpl. f_equal.
  rewrite (modPow_loop_spec m Hm (Z.to_nat exp)); try lia.
  - rewrite Z.mul_1_l. apply Z.mod_pow_l.
  - apply Z.mod_pos_bound; lia.
Qed.

Lemma modPow_negative_exponent (base exp m : Z) :
  0 < m -> exp < 0 ->
  modPow base exp m = modInv (base ^ (- exp) mod m) m.
Proof.
  intros Hm He. simp modPow. destruct (Z.eq_dec m 0); [lia|]. simpl.
  destruct (Z.eq_dec exp 0); [lia|]. simpl.
  rewrite toZn_pos by lia. simpl.
  destruct (Z_lt_dec exp 0); [|lia]. simpl.
  rewrite abs_eq.
  rewrite modPow_positive_exponent by lia. simpl.
  replace (Z.abs exp) with (- exp) by lia.
  rewrite Z.mod_pow_l. reflexivity.
Qed.

(** C7, as stated, fails: a negative modulus is not accepted.  With a
    non-negative exponent no inverse is needed, and yet
    [modPow 2 1 (-3)] throws, from [toZn]. *)
Lemma modPow_rejects_negative_modulus :
  ~ (forall base exp m : Z,
       0 <= exp -> (throws (modPow base exp m) = true <-> m = 0)).
Proof.
  intros H. destruct (H 2 1 (-3) ltac:(lia)) as [Hm _].
  assert (Ht : throws (modPow 2 1 (-3)) = true) by reflexivity.
  specialize (Hm Ht). lia.
Qed.

(** C7, amended: [modPow] throws when [m = 0]; it returns [1] when
    [exp = 0] and [m <> 0], whatever the base and the sign of [m]; for
    a negative [m] and [exp <> 0] it throws, from [toZn]; for a
    positive [m] it returns [base ^ exp mod m] when [exp > 0], and for
    [exp < 0] it throws exactly when [base ^ (- exp) mod m] has no
    inverse modulo [m]. *)
Theorem modPow_failure_cases (base exp m : Z) :
  (m = 0 -> modPow base exp m = Throw "Cannot modPow with modulus 0") /\
  (m <> 0 -> exp = 0 -> modPow base exp m = Ok 1) /\
  (m < 0 -> exp <> 0 -> modPow base exp m = Throw "m must be > 0") /\
  (0 < m -> 0 < exp -> modPow base exp m = Ok (base ^ exp mod m)) /\
  (0 < m -> exp < 0 -> Z.gcd (base ^ (- exp) mod m) m = 1 ->
   throws (modPow base exp m) = false) /\
  (0 < m -> exp < 0 -> Z.gcd (base ^ (- exp) mod m) m <> 1 ->
   modPow base exp m = Throw "Modular inverse does not exist").
Proof.
  repeat split.
  - intros ->. apply modPow_zero_modulus.
  - intros Hm ->. apply modPow_zero_exponent, Hm.
  - apply modPow_negative_modulus.
  - apply modPow_positive_exponent.
  - intros Hm He Hg. rewrite modPow_negative_exponent by lia.
    pose proof (Z.mod_pos_bound (base ^ (- exp)) m Hm) as Hb.
    destruct (modInv_succeeds (base ^ (- exp) mod m) m Hm) as (x & Hx & _).
    + rewrite Z.mod_mod by lia. exact Hg.
    + rewrite Hx. reflexivity.
  - intros Hm He Hg. rewrite modPow_negative_exponent by lia.
    apply modInv_fails; [lia|]. rewrite Z.mod_mod by lia. exact Hg.
Qed.

Lemma modPow_failure_cases_witness :
  modPow 5 3 0 = Throw "Cannot modPow with modulus 0" /\
  modPow 0 0 (-3) = Ok 1 /\
  modPow 2 1 (-3) = Throw "m must be > 0" /\
  modPow 3 5 7 = Ok (3 ^ 5 mod 7) /\
  throws (modPow 3 (-2) 7) = false /\
  modPow 2 (-1) 8 = Throw "Modular inverse does not exist".
Proof.
  split; [apply (proj1 (modPow_failure_cases 5 3 0)); reflexivity|].
  split; [apply (proj1 (proj2 (modPow_failure_cases 0 0 (-3)))); lia|].
  split.
  { apply (proj1 (proj2 (proj2 (modPow_failure_cases 2 1 (-3))))); lia. }
  split.
  { apply (proj1 (proj2 (proj2 (proj2 (modPow_failure_cases 3 5 7)))));
      lia. }
  split.
  { apply (proj1 (proj2 (proj2 (proj2 (proj2
             (modPow_failure_cases 3 (-2) 7)))))); [lia|lia|reflexivity]. }
  apply (proj2 (proj2 (proj2 (proj2 (proj2
           (modPow_failure_cases 2 (-1) 8)))))); [lia|lia|].
  vm_compute. congruence.
Defined.

(** ** Digit strings *)

Lemma binary_length (p : positive) (rest : string) :
  String.length (BinaryString.Raw.of_pos p rest) =
  (Pos.size_nat p + String.length rest)%nat.
Proof.
  revert rest. induction p as [p IH|p IH|]; intros rest; simpl.
  - rewrite IH. simpl. lia.
  - rewrite IH. simpl. lia.
  - reflexivity.
Qed.

Lemma size_nat_bounds (p : positive) :
  2 ^ (Z.of_nat (Pos.size_nat p) - 1) <= Z.pos p <
  2 ^ Z.of_nat (Pos.size_nat p).
Proof.
  induction p as [p IH|p IH|]; simpl Pos.size_nat.
  - replace (Z.of_nat (S (Pos.size_nat p)) - 1)
      with (Z.succ (Z.of_nat (Pos.size_nat p) - 1)) by lia.
    replace (Z.of_nat (S (Pos.size_nat p)))
      with (Z.succ (Z.of_nat (Pos.size_nat p))) by lia.
    assert (0 < Pos.size_nat p)%nat by (destruct p; simpl; lia).
    rewrite !Z.pow_succ_r by lia. lia.
  - replace (Z.of_nat (S (Pos.size_nat p)) - 1)
      with (Z.succ (Z.of_nat (Pos.size_nat p) - 1)) by lia.
    replace (Z.of_nat (S (Pos.size_nat p)))
      with (Z.succ (Z.of_nat (Pos.size_nat p))) by lia.
    assert (0 < Pos.size_nat p)%nat by (destruct p; simpl; lia).
    rewrite !Z.pow_succ_r by lia. lia.
  - simpl. lia.
Qed.

(** The length of [toString2] is the bit length of the magnitude, plus
    one for the sign of a negative number. *)
Lemma toString2_length_neg (p : positive) :
  String.length (toString2 (Z.neg p)) = S (Pos.size_nat p).
Proof. simpl. rewrite binary_length. simpl. lia. Qed.

Lemma toString2_length_pos (p : positive) :
  String.length (toString2 (Z.pos p)) = Pos.size_nat p.
Proof. simpl. rewrite binary_length. simpl. lia. Qed.

Lemma hex_all_digits :
  forall (p : positive) (rest : string),
    allHexDigits (HexString.Raw.of_pos p rest) = allHexDigits rest.
Proof.
  fix IH 1. intros p rest.
  do 4 try destruct p as [p|p|]; try reflexivity;
    cbn [HexString.Raw.of_pos]; rewrite IH; reflexivity.
Qed.

Lemma hex_leading :
  forall (p : positive) (rest : string),
    leadingNonzero (HexString.Raw.of_pos p rest) = true.
Proof.
  fix IH 1. intros p rest.
  do 4 try destruct p as [p|p|]; try reflexivity;
    cbn [HexString.Raw.of_pos]; apply IH.
Qed.

Lemma hex_value (p : positive) :
  HexString.Raw.to_N (HexString.Raw.of_pos p "") 0 = N.pos p.
Proof. apply HexString.Raw.to_N_of_pos. Qed.

Lemma digitZ_bound (ch : ascii) : 0 <= digitZ ch < 16.
Proof. each_ascii ch; vm_compute; split; congruence. Qed.

Lemma hexDigit_not_sign (ch : ascii) :
  isHexDigit ch = true -> (ch =? "-")%char = false /\ (ch =? "+")%char = false.
Proof. each_ascii ch; vm_compute; intros H; split; congruence. Qed.

Lemma hexDigit_nonzero (ch : ascii) :
  isHexDigit ch = true -> (ch =? "0")%char = false -> digitZ ch <> 0.
Proof. each_ascii ch; vm_compute; congruence. Qed.

Lemma hexDigit_value (ch : ascii) :
  isHexDigit ch = true ->
  HexString.ascii_to_digit ch = Some (Z.to_N (digitZ ch)).
Proof. each_ascii ch; vm_compute; congruence. Qed.

Lemma parseInt16_pair (c1 c2 : ascii) :
  isHexDigit c1 = true -> isHexDigit c2 = true ->
  toUint8 (parseInt16 (String c1 (String c2 ""))) =
  16 * digitZ c1 + digitZ c2.
Proof.
  intros H1 H2. unfold parseInt16.
  destruct (hexDigit_not_sign c1 H1) as [-> ->].
  simpl hexPrefix.
  rewrite (hexDigit_value c1 H1), (hexDigit_value c2 H2). simpl.
  pose proof (digitZ_bound c1). pose proof (digitZ_bound c2).
  rewrite !Z2N.id by lia. rewrite Z.mod_small by lia. lia.
Qed.

Lemma substring_0_0 (s : string) : substring 0 0 s = ""%string.
Proof. destruct s; reflexivity. Qed.

Lemma hexToUint8_cons (c1 c2 : ascii) (rest : string) :
  hexToUint8 (String c1 (String c2 rest)) =
  toUint8 (parseInt16 (String c1 (String c2 ""))) :: hexToUint8 rest.
Proof.
  unfold hexToUint8. cbn [String.length].
  assert (E : (S (S (String.length rest)) / 2 = S (String.length rest / 2))%nat).
  { replace (S (S (String.length rest))) with (String.length rest + 1 * 2)%nat
      by lia.
    rewrite Nat.div_add by lia. lia. }
  rewrite E.
  cbn [seq map]. f_equal.
  - simpl. rewrite substring_0_0. reflexivity.
  - rewrite <- seq_shift, map_map. apply map_ext. intros i.
    replace (2 * S i)%nat with (S (S (2 * i))) by lia. reflexivity.
Qed.

Lemma fold_bigEndian_shift (bytes : list Z) (acc : Z) :
  fold_left (fun a b => a * 256 + b) bytes acc =
  acc * 256 ^ Z.of_nat (length bytes) + bigEndian bytes.
Proof.
  unfold bigEndian. revert acc.
  induction bytes as [|b bytes IH]; intros acc.
  - simpl. lia.
  - cbn [fold_left length]. rewrite IH, (IH (0 * 256 + b)).
    rewrite Nat2Z.inj_succ, Z.pow_succ_r by lia. lia.
Qed.

Lemma bigEndian_cons (b : Z) (bytes : list Z) :
  bigEndian (b :: bytes) =
  b * 256 ^ Z.of_nat (length bytes) + bigEndian bytes.
Proof.
  unfold bigEndian at 1. cbn [fold_left]. rewrite fold_bigEndian_shift. lia.
Qed.

Lemma bigEndian_snoc (bytes : list Z) (b : Z) :
  bigEndian (bytes ++ [b]) = bigEndian bytes * 256 + b.
Proof. unfold bigEndian. rewrite fold_left_app. reflexivity. Qed.

(** The bytes of an even-length string of hexadecimal digits are in
    range and denote the number the digits denote. *)
Lemma hexToUint8_value (n : nat) :
  forall (s : string) (acc : N),
    String.length s = (2 * n)%nat -> allHexDigits s = true ->
    Forall (fun b => 0 <= b < 256) (hexToUint8 s) /\
    length (hexToUint8 s) = n /\
    fold_left (fun a b => a * 256 + b) (hexToUint8 s) (Z.of_N acc) =
    Z.of_N (HexString.Raw.to_N s acc).
Proof.
  induction n as [|n IH]; intros s acc Hlen Hall.
  - destruct s; [|discriminate]. simpl. repeat split. constructor.
  - destruct s as [|c1 [|c2 rest]]; try (simpl in Hlen; lia).
    cbn [allHexDigits] in Hall.
    apply andb_prop in Hall as [H1 Hall]. apply andb_prop in Hall as [H2 Hall].
    rewrite hexToUint8_cons, parseInt16_pair by assumption.
    pose proof (digitZ_bound c1). pose proof (digitZ_bound c2).
    destruct (IH rest (Z.to_N (digitZ c2) + 16 * (Z.to_N (digitZ c1) + 16 * acc))%N)
      as (Hr & Hl & Hv); [simpl in Hlen; lia|assumption|].
    split; [constructor; [lia|assumption]|].
    split; [simpl; lia|].
    cbn [fold_left HexString.Raw.to_N].
    rewrite (hexDigit_value c1 H1), (hexDigit_value c2 H2).
    rewrite <- Hv. f_equal. lia.
Qed.

Lemma bigEndian_range (bytes : list Z) :
  Forall (fun b => 0 <= b < 256) bytes ->
  0 <= bigEndian bytes < 256 ^ Z.of_nat (length bytes).
Proof.
  induction 1 as [|b bytes Hb _ IH].
  - vm_compute. split; congruence.
  - rewrite bigEndian_cons. cbn [length].
    rewrite Nat2Z.inj_succ, Z.pow_succ_r by lia.
    assert (0 < 256 ^ Z.of_nat (length bytes)) by (apply Z.pow_pos_nonneg; lia).
    nia.
Qed.

Lemma bigEndian_lower (b : Z) (bytes : list Z) :
  Forall (fun b => 0 <= b < 256) (b :: bytes) -> b <> 0 ->
  256 ^ Z.of_nat (length bytes) <= bigEndian (b :: bytes).
Proof.
  intros Hall Hb. inversion Hall as [|? ? Hb' Hrest]; subst.
  rewrite bigEndian_cons. pose proof (bigEndian_range bytes Hrest).
  assert (0 < 256 ^ Z.of_nat (length bytes)) by (apply Z.pow_pos_nonneg; lia).
  nia.
Qed.

Lemma hexPadZero_length (s : string) :
  exists k, String.length (hexPadZero s) = (2 * k)%nat.
Proof.
  unfold hexPadZero.
  pose proof (Nat.div_mod_eq (String.length s) 2) as Hd.
  pose proof (Nat.mod_upper_bound (String.length s) 2 ltac:(lia)) as Hm.
  destruct (Nat.eqb_spec (String.length s mod 2) 0) as [Hz|Hz]; simpl.
  - exists (String.length s / 2)%nat. lia.
  - exists (S (String.length s / 2)). lia.
Qed.

Lemma hexPadZero_digits (s : string) :
  allHexDigits (hexPadZero s) = allHexDigits s.
Proof.
  unfold hexPadZero. destruct (negb _); reflexivity.
Qed.

Lemma hexPadZero_value (s : string) :
  HexString.Raw.to_N (hexPadZero s) 0 = HexString.Raw.to_N s 0.
Proof.
  unfold hexPadZero. destruct (negb _); reflexivity.
Qed.

(** The first byte of a padded digit string that does not start with
    ["0"] is not zero. *)
Lemma hexPadZero_first_byte (s : string) :
  allHexDigits s = true -> leadingNonzero s = true ->
  exists b bytes, hexToUint8 (hexPadZero s) = b :: bytes /\ b <> 0.
Proof.
  intros Hall Hlead.
  destruct (hexPadZero_length s) as [k Hk]. revert Hk.
  destruct s as [|c1 rest]; [discriminate|].
  cbn [allHexDigits leadingNonzero] in *.
  apply andb_prop in Hall as [H1 Hall]. apply negb_true_iff in Hlead.
  pose proof (hexDigit_nonzero c1 H1 Hlead) as Hnz.
  pose proof (digitZ_bound c1) as Hb1.
  unfold hexPadZero. destruct (negb _) eqn:Hodd; intros Hk.
  - rewrite hexToUint8_cons, parseInt16_pair by (assumption || reflexivity).
    eexists _, _. split; [reflexivity|].
    change (digitZ "0") with 0. lia.
  - destruct rest as [|c2 rest]; [simpl in Hk; lia|].
    cbn [allHexDigits] in Hall. apply andb_prop in Hall as [H2 Hall].
    rewrite hexToUint8_cons, parseInt16_pair by assumption.
    pose proof (digitZ_bound c2).
    eexists _, _. split; [reflexivity|]. lia.
Qed.

(** The bytes [bigintToUint8] builds for a non-negative number: they
    are in range, denote the number, and start with a zero byte only
    for [0] itself, which is a single zero byte. *)
Lemma hexToUint8_nonneg (n : Z) :
  0 <= n ->
  Forall (fun b => 0 <= b < 256) (hexToUint8 (bigintToHexPadZero n)) /\
  bigEndian (hexToUint8 (bigintToHexPadZero n)) = n /\
  (n = 0 -> hexToUint8 (bigintToHexPadZero n) = [0]) /\
  (0 < n ->
   exists b bytes, hexToUint8 (bigintToHexPadZero n) = b :: bytes /\ b <> 0).
Proof.
  intros Hn. destruct n as [|p|p]; [| |lia].
  - change (hexToUint8 (bigintToHexPadZero 0)) with [0].
    split; [constructor; [lia|constructor]|].
    repeat split; try reflexivity; lia.
  - unfold bigintToHexPadZero, bigintToHex. cbn [negb toString16].
    set (s := HexString.Raw.of_pos p "").
    assert (Hall : allHexDigits s = true) by apply hex_all_digits.
    destruct (hexPadZero_length s) as [k Hk].
    destruct (hexToUint8_value k (hexPadZero s) 0%N Hk) as (Hr & Hl & Hv).
    { rewrite hexPadZero_digits. exact Hall. }
    split; [exact Hr|]. split.
    + unfold bigEndian. change 0 with (Z.of_N 0) at 1. rewrite Hv.
      rewrite hexPadZero_value. unfold s. rewrite hex_value. reflexivity.
    + split; [discriminate|]. intros _.
      apply hexPadZero_first_byte; [exact Hall|apply hex_leading].
Qed.

(** ** The decoder's loops *)

(** A property of bytes that holds of each of the 256 holds of all. *)
Lemma byte_cases (P : Z -> bool) :
  forallb P (map Z.of_nat (seq 0 256)) = true ->
  forall b, 0 <= b < 256 -> P b = true.
Proof.
  intros Hall b Hb. rewrite forallb_forall in Hall. apply Hall.
  rewrite <- (Z2Nat.id b) by lia. apply in_map, in_seq. lia.
Qed.

Lemma invert_byte (b : Z) :
  0 <= b < 256 -> Z.land (Z.lnot b) 0xff = 255 - b.
Proof.
  intros Hb. apply Z.eqb_eq.
  apply (byte_cases (fun b => Z.land (Z.lnot b) 0xff =? 255 - b));
    [vm_compute; reflexivity|exact Hb].
Qed.

Lemma sign_bit (b : Z) :
  0 <= b < 256 -> (Z.land b 0x80 =? 0) = (b <? 128).
Proof.
  intros Hb. apply Bool.eqb_prop.
  apply (byte_cases (fun b => Bool.eqb (Z.land b 0x80 =? 0) (b <? 128)));
    [vm_compute; reflexivity|exact Hb].
Qed.

Lemma carry_byte (b : Z) :
  0 <= b < 256 ->
  0 <= Z.land (b + 1) 0xff < 256 /\
  0 <= Z.shiftr (b + 1) 8 <= 1 /\
  b + 1 = 256 * Z.shiftr (b + 1) 8 + Z.land (b + 1) 0xff.
Proof.
  intros Hb.
  change 0xff with (Z.ones 8). rewrite Z.land_ones, Z.shiftr_div_pow2 by lia.
  change (2 ^ 8) with 256.
  pose proof (Z.div_mod (b + 1) 256 ltac:(lia)).
  pose proof (Z.mod_pos_bound (b + 1) 256 ltac:(lia)).
  lia.
Qed.

Lemma invert_loop_from (suf : list Z) :
  forall pre : list Z,
    fold_left (fun bytes i => <[i := invert (byteAt bytes i)]> bytes)
      (seq (length pre) (length suf)) (pre ++ suf)
    = pre ++ map invert suf.
Proof.
  induction suf as [|x suf IH]; intros pre; [reflexivity|].
  cbn [length seq fold_left map].
  unfold byteAt at 2. rewrite list_lookup_middle by reflexivity. simpl.
  rewrite insert_app_r_alt by lia. rewrite Nat.sub_diag. simpl.
  specialize (IH (pre ++ [invert x])).
  rewrite length_app, <- !app_assoc in IH. simpl in IH.
  replace (length pre + 1)%nat with (S (length pre)) in IH by lia.
  exact IH.
Qed.

(** The first loop complements every byte. *)
Lemma invert_loop_map (bytes : list Z) :
  invert_loop bytes = map invert bytes.
Proof. apply (invert_loop_from bytes []). Qed.

Lemma bigEndian_complement (bytes : list Z) :
  Forall (fun b => 0 <= b < 256) bytes ->
  Forall (fun b => 0 <= b < 256) (map invert bytes) /\
  bigEndian (map invert bytes) =
  256 ^ Z.of_nat (length bytes) - 1 - bigEndian bytes.
Proof.
  induction 1 as [|b bytes Hb _ [IHr IHv]]; [split; [constructor|reflexivity]|].
  cbn [map]. unfold invert at 1 3. rewrite invert_byte by lia. split.
  - constructor; [lia|exact IHr].
  - rewrite !bigEndian_cons, IHv, length_map. cbn [length].
    rewrite Nat2Z.inj_succ, Z.pow_succ_r by lia. lia.
Qed.

(** The carry loop entered at index [i] leaves the bytes from [i] on
    alone. *)
Lemma carry_loop_app (i : nat) :
  forall (carry : Z) (pre suf : list Z),
    (i <= length pre)%nat ->
    carry_loop i carry (pre ++ suf) = carry_loop i carry pre ++ suf.
Proof.
  induction i as [|i IH]; intros carry pre suf Hi; [reflexivity|].
  cbn [carry_loop]. destruct (carry >? 0); [|reflexivity].
  unfold byteAt. rewrite lookup_app_l by lia.
  rewrite insert_app_l by lia.
  apply IH. rewrite length_insert. lia.
Qed.

(** The second loop adds the carry to the big-endian number, modulo
    [256 ^ length]. *)
Lemma carry_loop_spec (bytes : list Z) :
  forall carry : Z,
    Forall (fun b => 0 <= b < 256) bytes -> 0 <= carry <= 1 ->
    Forall (fun b => 0 <= b < 256) (carry_loop (length bytes) carry bytes) /\
    length (carry_loop (length bytes) carry bytes) = length bytes /\
    bigEndian (carry_loop (length bytes) carry bytes) =
    (bigEndian bytes + carry) mod 256 ^ Z.of_nat (length bytes).
Proof.
  induction bytes as [|x pre IH] using rev_ind; intros carry Hall Hc.
  - simpl. split; [constructor|]. split; [reflexivity|].
    change (bigEndian []) with 0. rewrite Z.mod_1_r. reflexivity.
  - apply Forall_app in Hall as [Hpre Hx].
    apply Forall_cons in Hx as [Hx _].
    pose proof (bigEndian_range pre Hpre) as Hrange.
    assert (Hpow : 0 < 256 ^ Z.of_nat (length pre))
      by (apply Z.pow_pos_nonneg; lia).
    rewrite length_app. cbn [length].
    replace (length pre + 1)%nat with (S (length pre)) by lia.
    rewrite Nat2Z.inj_succ, Z.pow_succ_r by lia.
    rewrite bigEndian_snoc.
    cbn [carry_loop]. destruct (Z.gtb_spec carry 0) as [Hpos|Hzero].
    + assert (carry = 1) by lia. subst carry.
      unfold byteAt. rewrite list_lookup_middle by reflexivity. simpl.
      rewrite insert_app_r_alt by lia. rewrite Nat.sub_diag. simpl.
      rewrite carry_loop_app by lia.
      destruct (carry_byte x Hx) as (Hb & Hcarry & Hsum).
      destruct (IH (Z.shiftr (x + 1) 8) Hpre Hcarry) as (Hr & Hl & Hv).
      split; [apply Forall_app; split; [exact Hr|]|].
      { constructor; [exact Hb|constructor]. }
      split; [rewrite length_app, Hl; simpl; lia|].
      rewrite bigEndian_snoc, Hv.
      set (M := 256 ^ Z.of_nat (length pre)) in *.
      set (A := bigEndian pre + Z.shiftr (x + 1) 8) in *.
      pose proof (Z.div_mod A M ltac:(lia)) as HA.
      pose proof (Z.mod_pos_bound A M Hpow) as HAb.
      apply (Z.mod_unique_pos _ _ (A / M)); [nia|].
      unfold A in *. nia.
    + assert (carry = 0) by lia. subst carry.
      split; [apply Forall_app; split; [exact Hpre|]|].
      { constructor; [exact Hx|constructor]. }
      split; [rewrite length_app; simpl; lia|].
      rewrite bigEndian_snoc, Z.add_0_r.
      symmetry. apply Z.mod_small. nia.
Qed.

(** The last loop reads the bytes as a big-endian number. *)
Lemma shift_fold_bigEndian (bytes : list Z) :
  fold_left (fun result b => Z.shiftl result 8 + b) bytes 0 = bigEndian bytes.
Proof.
  unfold bigEndian. generalize 0.
  induction bytes as [|b bytes IH]; intros acc; [reflexivity|].
  cbn [fold_left]. rewrite Z.shiftl_mul_pow2 by lia. apply IH.
Qed.

(** ** uint8ToBigint *)

Lemma uint8ToBigint_body_plain (bytes : list Z) (flag : bool) :
  flag && negb (Z.land (byteAt bytes 0) 0x80 =? 0) = false ->
  uint8ToBigint_body bytes flag = (bigEndian bytes, bytes).
Proof.
  intros H. unfold uint8ToBigint_body. rewrite H.
  rewrite shift_fold_bigEndian. reflexivity.
Qed.

Lemma sign_byte_positive (bytes : list Z) :
  Forall (fun b => 0 <= b < 256) bytes -> 128 <= byteAt bytes 0 ->
  0 < bigEndian bytes.
Proof.
  intros Hall Hb. destruct bytes as [|b bytes];
    [change (byteAt [] 0) with 0 in Hb; lia|].
  change (byteAt (b :: bytes) 0) with b in Hb.
  pose proof (bigEndian_lower b bytes Hall ltac:(lia)).
  assert (0 < 256 ^ Z.of_nat (length bytes)) by (apply Z.pow_pos_nonneg; lia).
  lia.
Qed.

(** With the flag set and the sign bit of the first byte set, the
    array is left holding the two's-complement negation of its
    contents, and the value returned is the opposite of what it then
    denotes. *)
Lemma uint8ToBigint_body_negative (bytes : list Z) :
  Forall (fun b => 0 <= b < 256) bytes -> 128 <= byteAt bytes 0 ->
  exists bytes',
    uint8ToBigint_body bytes true = (- bigEndian bytes', bytes') /\
    length bytes' = length bytes /\
    Forall (fun b => 0 <= b < 256) bytes' /\
    bigEndian bytes' = 256 ^ Z.of_nat (length bytes) - bigEndian bytes.
Proof.
  intros Hall Hb.
  assert (Hin : 0 <= byteAt bytes 0 < 256).
  { destruct bytes as [|b bytes]; [vm_compute; split; congruence|].
    apply Forall_cons in Hall as [Hb0 _]. exact Hb0. }
  pose proof (sign_bit (byteAt bytes 0) Hin) as Hs.
  destruct (Z.ltb_spec (byteAt bytes 0) 128) as [|_]; [lia|].
  unfold uint8ToBigint_body. rewrite Hs. cbn [andb negb].
  rewrite invert_loop_map, shift_fold_bigEndian.
  destruct (bigEndian_complement bytes Hall) as [Hcr Hcv].
  destruct (carry_loop_spec (map invert bytes) 1 Hcr ltac:(lia))
    as (Hr & Hl & Hv).
  rewrite length_map in Hr, Hl, Hv.
  eexists. split; [reflexivity|]. split; [exact Hl|]. split; [exact Hr|].
  rewrite Hv, Hcv.
  pose proof (bigEndian_range bytes Hall).
  pose proof (sign_byte_positive bytes Hall Hb).
  replace (256 ^ Z.of_nat (length bytes) - 1 - bigEndian bytes + 1)
    with (256 ^ Z.of_nat (length bytes) - bigEndian bytes) by lia.
  apply Z.mod_small. lia.
Qed.

(** C4, as stated, fails: decoding the negative test vector with the
    flag set leaves the caller's array holding [[7; 91; 205; 21]]. *)
Lemma uint8ToBigint_overwrites_input :
  ~ (forall (l : loc) (h h' : gmap loc (list Z)) (b : list Z)
            (flag : bool) (r : Z),
       h !! l = Some b -> b <> [] ->
       uint8ToBigint l flag h = Some (r, h') -> h' !! l = Some b).
Proof.
  intros H.
  specialize (H 1%positive {[1%positive := [248; 164; 50; 235]]}
                (<[1%positive := [7; 91; 205; 21]]>
                   {[1%positive := [248; 164; 50; 235]]})
                [248; 164; 50; 235] true (-123456789)).
  rewrite lookup_insert_eq in H.
  assert (Hne : Some [7; 91; 205; 21] <> Some [248; 164; 50; 235])
    by congruence.
  apply Hne, H; [apply lookup_singleton_eq|congruence|].
  unfold uint8ToBigint. rewrite lookup_singleton_eq. reflexivity.
Qed.

(** C4, amended: the decoder writes into the caller's array.  When the
    flag is off or the sign bit of the first byte is clear, nothing is
    written and the array is left as it was; when the flag is on and
    the sign bit is set, the array is overwritten with the
    two's-complement negation of its contents, which differs from them
    unless they denote exactly half of [256 ^ length]. *)
Theorem uint8ToBigint_effect (l : loc) (h : gmap loc (list Z))
    (b : list Z) (flag : bool) :
  h !! l = Some b -> Forall (fun x => 0 <= x < 256) b ->
  exists r h',
    uint8ToBigint l flag h = Some (r, h') /\
    (flag = false \/ byteAt b 0 < 128 -> h' = h /\ r = bigEndian b) /\
    (flag = true -> 128 <= byteAt b 0 ->
     exists b',
       h' !! l = Some b' /\ length b' = length b /\
       Forall (fun x => 0 <= x < 256) b' /\
       bigEndian b' = 256 ^ Z.of_nat (length b) - bigEndian b /\
       r = - bigEndian b' /\
       (2 * bigEndian b <> 256 ^ Z.of_nat (length b) -> b' <> b)).
Proof.
  intros Hl Hall. unfold uint8ToBigint. rewrite Hl.
  assert (Hin : 0 <= byteAt b 0 < 256).
  { destruct b as [|x b]; [vm_compute; split; congruence|].
    apply Forall_cons in Hall as [Hx _]. exact Hx. }
  destruct (uint8ToBigint_body b flag) as [r b'] eqn:Hbody.
  exists r, (<[l := b']> h). split; [reflexivity|].
  split.
  - intros Hplain. rewrite uint8ToBigint_body_plain in Hbody.
    + inversion Hbody; subst. split; [apply insert_id, Hl|reflexivity].
    + destruct Hplain as [->|Hlt]; [reflexivity|].
      rewrite (sign_bit _ Hin).
      destruct (Z.ltb_spec (byteAt b 0) 128); [|lia].
      apply andb_false_r.
  - intros -> Hsign.
    destruct (uint8ToBigint_body_negative b Hall Hsign)
      as (b'' & Hb'' & Hlen & Hr & Hv).
    rewrite Hbody in Hb''. inversion Hb''; subst.
    exists b''. rewrite lookup_insert_eq.
    repeat split; try assumption.
    intros Hhalf ->. lia.
Qed.

Lemma uint8ToBigint_effect_witness :
  exists r h',
    uint8ToBigint 1%positive true {[1%positive := [248; 164; 50; 235]]}
      = Some (r, h') /\
    (true = false \/ byteAt [248; 164; 50; 235] 0 < 128 ->
     h' = {[1%positive := [248; 164; 50; 235]]} /\
     r = bigEndian [248; 164; 50; 235]) /\
    (true = true -> 128 <= byteAt [248; 164; 50; 235] 0 ->
     exists b',
       h' !! 1%positive = Some b' /\
       length b' = length [248; 164; 50; 235] /\
       Forall (fun x => 0 <= x < 256) b' /\
       bigEndian b' =
       256 ^ Z.of_nat (length [248; 164; 50; 235])
       - bigEndian [248; 164; 50; 235] /\
       r = - bigEndian b' /\
       (2 * bigEndian [248; 164; 50; 235]
        <> 256 ^ Z.of_nat (length [248; 164; 50; 235]) ->
        b' <> [248; 164; 50; 235])).
Proof.
  apply (uint8ToBigint_effect 1%positive
           {[1%positive := [248; 164; 50; 235]]} [248; 164; 50; 235] true).
  - apply lookup_singleton_eq.
  - repeat (constructor; [lia|]). constructor.
Defined.

(** ** bigintToUint8 *)

Lemma pow256 (n : Z) : 0 <= n -> 256 ^ n = 2 ^ (8 * n).
Proof. intros Hn. rewrite Z.pow_mul_r by lia. reflexivity. Qed.

(** A byte sequence without a leading zero byte that denotes a number
    of [[2 ^ (8 * K - 1), 2 ^ (8 * K))] has [K] bytes, and the sign bit
    of its first byte is set. *)
Lemma byte_length_unique (b : Z) (bytes : list Z) (K : Z) :
  Forall (fun b => 0 <= b < 256) (b :: bytes) -> b <> 0 -> 0 < K ->
  2 ^ (8 * K - 1) <= bigEndian (b :: bytes) < 2 ^ (8 * K) ->
  Z.of_nat (length (b :: bytes)) = K /\ 128 <= b.
Proof.
  intros Hall Hb HK [Hlo Hhi].
  pose proof (bigEndian_lower b bytes Hall Hb) as Hlow.
  pose proof (bigEndian_range (b :: bytes) Hall) as [_ Hup].
  cbn [length] in *. rewrite Nat2Z.inj_succ in *.
  set (n := Z.of_nat (length bytes)) in *.
  assert (Hn : 0 <= n) by (unfold n; lia).
  rewrite pow256 in Hlow, Hup by lia.
  assert (HnK : Z.succ n = K).
  { destruct (Z.lt_trichotomy (Z.succ n) K) as [Hlt|[Heq|Hgt]]; [|exact Heq|].
    - pose proof (Z.pow_le_mono_r 2 (8 * Z.succ n) (8 * K - 1)
                    ltac:(lia) ltac:(lia)). lia.
    - pose proof (Z.pow_le_mono_r 2 (8 * K) (8 * n) ltac:(lia) ltac:(lia)).
      lia. }
  split; [exact HnK|].
  apply Forall_cons in Hall as [Hb' Hrest].
  pose proof (bigEndian_range bytes Hrest) as Hr.
  rewrite bigEndian_cons in Hlo. fold n in Hlo, Hr.
  rewrite pow256 in Hlo, Hr by lia.
  replace (8 * K - 1) with (8 * n + 7) in Hlo by lia.
  rewrite Z.pow_add_r in Hlo by lia. change (2 ^ 7) with 128 in Hlo.
  assert (0 < 2 ^ (8 * n)) by (apply Z.pow_pos_nonneg; lia).
  nia.
Qed.

(** The width chosen for a negative number: a multiple of 8 that
    exceeds the length of its binary string, sign included, by at most
    8; the magnitude is below a quarter of [2 ^ bits]. *)
Lemma negative_bits (p : positive) :
  let len := Z.of_nat (String.length (toString2 (Z.neg p))) in
  let bits := (Z.quot len 8 + 1) * 8 in
  len = Z.of_nat (Pos.size_nat p) + 1 /\
  bits mod 8 = 0 /\ len < bits <= len + 8 /\
  2 ^ (bits - 10) <= Z.pos p < 2 ^ (bits - 2).
Proof.
  intros len bits.
  assert (Hlen : len = Z.of_nat (Pos.size_nat p) + 1).
  { unfold len. rewrite toString2_length_neg. lia. }
  assert (Hsz : (0 < Pos.size_nat p)%nat) by (destruct p; simpl; lia).
  assert (Hq : Z.quot len 8 = len / 8) by (apply Z.quot_div_nonneg; lia).
  pose proof (Z.div_mod len 8 ltac:(lia)) as Hd.
  pose proof (Z.mod_pos_bound len 8 ltac:(lia)) as Hm.
  assert (Hbits : len < bits <= len + 8) by (unfold bits; lia).
  split; [exact Hlen|]. split; [unfold bits; apply Z_mod_mult|].
  split; [exact Hbits|].
  pose proof (size_nat_bounds p) as [Hlo Hhi].
  pose proof (Z.pow_le_mono_r 2 (bits - 10) (Z.of_nat (Pos.size_nat p) - 1)
                ltac:(lia) ltac:(lia)).
  pose proof (Z.pow_le_mono_r 2 (Z.of_nat (Pos.size_nat p)) (bits - 2)
                ltac:(lia) ltac:(lia)).
  lia.
Qed.

(** What [bigintToUint8] returns for a negative number when asked to
    handle it. *)
Lemma bigintToUint8_negative (p : positive) :
  let bits :=
    (Z.quot (Z.of_nat (String.length (toString2 (Z.neg p)))) 8 + 1) * 8 in
  exists b bytes,
    bigintToUint8 (Z.neg p) true = Ok (b :: bytes) /\
    Forall (fun b => 0 <= b < 256) (b :: bytes) /\
    bigEndian (b :: bytes) = Z.neg p + 2 ^ bits /\
    8 * Z.of_nat (length (b :: bytes)) = bits /\
    128 <= b.
Proof.
  intros bits. destruct (negative_bits p) as (Hlen & Hmod & Hb & Hp).
  fold bits in Hmod, Hb, Hp.
  assert (Hbits : 8 <= bits).
  { pose proof (Z.div_mod bits 8 ltac:(lia)).
    assert (0 < Pos.size_nat p)%nat by (destruct p; simpl; lia). lia. }
  assert (H4 : 2 ^ bits = 4 * 2 ^ (bits - 2)).
  { replace bits with (2 + (bits - 2)) at 1 by lia.
    rewrite Z.pow_add_r by lia. reflexivity. }
  assert (H2 : 2 ^ (bits - 1) = 2 * 2 ^ (bits - 2)).
  { replace (bits - 1) with (1 + (bits - 2)) by lia.
    rewrite Z.pow_add_r by lia. reflexivity. }
  unfold bigintToUint8. cbn [Z.ltb Z.compare bind].
  fold bits. rewrite Z.shiftl_1_l.
  set (num := Z.neg p + 2 ^ bits).
  assert (Hnum : 2 ^ (bits - 1) <= num < 2 ^ bits) by (unfold num; lia).
  assert (Hpos : 0 < num)
    by (pose proof (Z.pow_pos_nonneg 2 (bits - 1)); lia).
  destruct (hexToUint8_nonneg num ltac:(lia)) as (Hr & Hv & _ & Hhead).
  destruct (Hhead Hpos) as (b & bytes & Heq & Hnz).
  rewrite Heq in *. exists b, bytes.
  split; [reflexivity|]. split; [exact Hr|]. split; [exact Hv|].
  pose proof (Z.div_mod bits 8 ltac:(lia)) as Hd.
  destruct (byte_length_unique b bytes (bits / 8) Hr Hnz ltac:(lia))
    as [Hk Hs].
  { rewrite Hv. replace (8 * (bits / 8)) with bits by lia. exact Hnum. }
  split; [lia|exact Hs].
Qed.

Lemma size_nat_log2 (p : positive) :
  Z.of_nat (Pos.size_nat p) = Z.log2 (Z.pos p) + 1.
Proof.
  pose proof (size_nat_bounds p) as Hb.
  assert (0 < Pos.size_nat p)%nat by (destruct p; simpl; lia).
  rewrite (Z.log2_unique (Z.pos p) (Z.of_nat (Pos.size_nat p) - 1)); [lia|lia|].
  replace (Z.succ (Z.of_nat (Pos.size_nat p) - 1))
    with (Z.of_nat (Pos.size_nat p)) by lia.
  exact Hb.
Qed.

(** C3, as stated, fails: [-127] fits in one byte ([0x81]), but it is
    encoded on two, [[0xff; 0x81]]. *)
Lemma bigintToUint8_not_minimal :
  ~ (forall (v : Z) (bytes : list Z),
       v < 0 -> bigintToUint8 v true = Ok bytes ->
       minimalTwosComplementOf v bytes).
Proof.
  intros H.
  destruct (H (-127) [255; 129] ltac:(lia) ltac:(reflexivity)) as [_ Hmin].
  specialize (Hmin 1). simpl in Hmin.
  assert (Hfit : fitsTwosComplement 1 (-127)) by (unfold fitsTwosComplement; simpl; lia).
  specialize (Hmin Hfit). lia.
Qed.

(** C3, amended: for [v < 0], with [len] the length of the binary
    string of [v] (the bit length of [|v|] plus one for the sign) and
    [bits = 8 * (len / 8 + 1)], the smallest multiple of 8 above [len],
    the encoder returns the [bits / 8] bytes of [v + 2 ^ bits]; they
    are a two's-complement representation of [v] with the sign bit
    set, at most one byte longer than the shortest one. *)
Theorem bigintToUint8_negative_encoding (v : Z) :
  v < 0 ->
  let len := Z.of_nat (String.length (toString2 v)) in
  let bits := 8 * (len / 8 + 1) in
  len = Z.log2 (- v) + 2 /\
  bits mod 8 = 0 /\ len < bits <= len + 8 /\
  exists bytes,
    bigintToUint8 v true = Ok bytes /\
    bigEndian bytes = v + 2 ^ bits /\
    8 * Z.of_nat (length bytes) = bits /\
    twosComplementOf v bytes /\
    128 <= byteAt bytes 0 /\
    (forall k, fitsTwosComplement k v -> Z.of_nat (length bytes) <= k + 1).
Proof.
  intros Hv len bits. destruct v as [|p|p]; try lia.
  destruct (negative_bits p) as (Hlen & Hmod & Hb & Hp).
  destruct (bigintToUint8_negative p) as (b & bytes & Henc & Hr & Hval & Hk & Hs).
  assert (Hbits : (Z.quot len 8 + 1) * 8 = bits).
  { unfold bits. rewrite Z.quot_div_nonneg by (unfold len; lia). lia. }
  fold len in Hlen, Hmod, Hb, Hp, Hval, Hk.
  rewrite Hbits in Hmod, Hb, Hp, Hval, Hk.
  split; [rewrite Hlen, size_nat_log2; simpl; lia|].
  split; [exact Hmod|]. split; [exact Hb|].
  exists (b :: bytes).
  assert (H8 : 8 <= bits)
    by (pose proof (Z.div_mod bits 8 ltac:(lia));
        assert (0 < Pos.size_nat p)%nat by (destruct p; simpl; lia); lia).
  assert (H4 : 2 ^ bits = 4 * 2 ^ (bits - 2)).
  { replace bits with (2 + (bits - 2)) at 1 by lia.
    rewrite Z.pow_add_r by lia. reflexivity. }
  assert (H2 : 2 ^ (bits - 1) = 2 * 2 ^ (bits - 2)).
  { replace (bits - 1) with (1 + (bits - 2)) by lia.
    rewrite Z.pow_add_r by lia. reflexivity. }
  split; [exact Henc|]. split; [exact Hval|]. split; [exact Hk|].
  split; [|split; [exact Hs|]].
  - unfold twosComplementOf, fitsTwosComplement. rewrite Hk, Hval.
    split; [exact Hr|]. split; [lia|].
    apply (Z.mod_unique_pos _ _ (-1)); lia.
  - intros k [Hk0 [Hlo _]].
    assert (Hle : bits - 10 <= 8 * k - 1).
    { destruct (Z.le_gt_cases (bits - 10) (8 * k - 1)) as [|Hgt]; [assumption|].
      pose proof (Z.pow_lt_mono_r 2 (8 * k - 1) (bits - 10)
                    ltac:(lia) ltac:(lia) Hgt). lia. }
    lia.
Qed.

Lemma bigintToUint8_negative_encoding_witness :
  -127 < 0 /\
  exists bytes,
    bigintToUint8 (-127) true = Ok bytes /\
    bigEndian bytes = -127 + 2 ^ 16 /\
    8 * Z.of_nat (length bytes) = 16 /\
    twosComplementOf (-127) bytes /\
    128 <= byteAt bytes 0 /\
    (forall k, fitsTwosComplement k (-127) ->
               Z.of_nat (length bytes) <= k + 1).
Proof.
  split; [lia|].
  apply (proj2 (proj2 (proj2
           (bigintToUint8_negative_encoding (-127) ltac:(lia))))).
Defined.

(** ** Round trips *)

(** X17: without the flag a non-negative number is read back as it
    was written. *)
Lemma roundtrip_plain (v : Z) :
  0 <= v ->
  exists bytes,
    bigintToUint8 v false = Ok bytes /\
    uint8ToBigint_body bytes false = (v, bytes).
Proof.
  intros Hv. unfold bigintToUint8.
  destruct (Z.ltb_spec v 0); [lia|]. cbn [bind].
  eexists. split; [reflexivity|].
  rewrite uint8ToBigint_body_plain by reflexivity.
  destruct (hexToUint8_nonneg v Hv) as (_ & -> & _). reflexivity.
Qed.

(** X16: with the flag a negative number is read back as it was
    written. *)
Lemma roundtrip_negative (v : Z) :
  v < 0 ->
  exists bytes,
    bigintToUint8 v true = Ok bytes /\
    fst (uint8ToBigint_body bytes true) = v.
Proof.
  intros Hv. destruct v as [|p|p]; try lia.
  destruct (bigintToUint8_negative p) as (b & bytes & Henc & Hr & Hval & Hk & Hs).
  exists (b :: bytes). split; [exact Henc|].
  destruct (uint8ToBigint_body_negative (b :: bytes) Hr Hs)
    as (bytes' & -> & _ & _ & Hv').
  cbn [fst]. rewrite Hv', Hval, pow256, Hk by lia. lia.
Qed.

(** X18: with the flag a non-negative number is read back as it was
    written only when the first byte written is below [0x80]; otherwise
    the decoder takes the top bit for a sign. *)
Lemma roundtrip_flag_nonneg (v : Z) :
  0 <= v ->
  exists bytes,
    bigintToUint8 v true = Ok bytes /\
    fst (uint8ToBigint_body bytes true) =
    if byteAt bytes 0 <? 128 then v
    else v - 256 ^ Z.of_nat (length bytes).
Proof.
  intros Hv. unfold bigintToUint8.
  destruct (Z.ltb_spec v 0); [lia|]. cbn [bind].
  eexists. split; [reflexivity|].
  destruct (hexToUint8_nonneg v Hv) as (Hr & Hval & _).
  set (bytes := hexToUint8 (bigintToHexPadZero v)) in *.
  assert (Hin : 0 <= byteAt bytes 0 < 256).
  { destruct bytes as [|x bytes]; [vm_compute; split; congruence|].
    apply Forall_cons in Hr as [Hx _]. exact Hx. }
  destruct (Z.ltb_spec (byteAt bytes 0) 128) as [Hlt|Hge].
  - rewrite uint8ToBigint_body_plain; [exact Hval|].
    rewrite (sign_bit _ Hin).
    destruct (Z.ltb_spec (byteAt bytes 0) 128); [reflexivity|lia].
  - destruct (uint8ToBigint_body_negative bytes Hr Hge)
      as (bytes' & -> & _ & _ & Hv').
    cbn [fst]. rewrite Hv', Hval. lia.
Qed.

(** C1 fails on the code at [128]: it is written as the single byte
    [0x80], which the decoder, asked to handle negative numbers, reads
    back as [-128]. *)
Theorem roundtrip_breaks_at_128 :
  bigintToUint8 128 true = Ok [128] /\
  fst (uint8ToBigint_body [128] true) = -128 /\
  fst <$> uint8ToBigint 1%positive true {[1%positive := [128]]} = Some (-128).
Proof.
  split; [reflexivity|]. split; [reflexivity|].
  unfold uint8ToBigint. rewrite lookup_singleton_eq. reflexivity.
Qed.

(** ** random *)

Lemma land_pow2 (v k : Z) :
  0 <= k -> Z.land v (2 ^ k) = if Z.testbit v k then 2 ^ k else 0.
Proof.
  intros Hk. apply Z.bits_inj'. intros i Hi.
  rewrite Z.land_spec, Z.pow2_bits_eqb by lia.
  destruct (Z.eqb_spec k i) as [->|Hne].
  - destruct (Z.testbit v i); [rewrite Z.pow2_bits_true by lia|rewrite Z.bits_0];
      reflexivity.
  - rewrite andb_false_r.
    destruct (Z.testbit v k);
      [rewrite Z.pow2_bits_false by lia|rewrite Z.bits_0]; reflexivity.
Qed.

Lemma append_length (s1 s2 : string) :
  String.length (String.append s1 s2) =
  (String.length s1 + String.length s2)%nat.
Proof. induction s1 as [|c s1 IH]; simpl; [reflexivity|]. rewrite IH. reflexivity. Qed.

Lemma allHexDigits_append (s1 s2 : string) :
  allHexDigits (String.append s1 s2) = allHexDigits s1 && allHexDigits s2.
Proof.
  induction s1 as [|c s1 IH]; simpl; [reflexivity|].
  rewrite IH. apply andb_assoc.
Qed.

Lemma byte_hex (b : Z) :
  0 <= b < 256 ->
  allHexDigits (padStart 2 "0" (toString16 b)) = true /\
  String.length (padStart 2 "0" (toString16 b)) = 2%nat.
Proof.
  intros Hb.
  pose proof (byte_cases
    (fun b => allHexDigits (padStart 2 "0" (toString16 b))
              && (String.length (padStart 2 "0" (toString16 b)) =? 2)%nat)
    ltac:(vm_compute; reflexivity) b Hb) as H.
  apply andb_prop in H as [H1 H2]. apply Nat.eqb_eq in H2.
  split; assumption.
Qed.

(** The string built from a buffer of bytes is ["0x"] followed by two
    hexadecimal digits per byte. *)
Lemma hexStringOf_digits (buffer : list Z) :
  Forall (fun b => 0 <= b < 256) buffer ->
  exists digits,
    hexStringOf buffer = String "0" (String "x" digits) /\
    allHexDigits digits = true /\
    String.length digits = (2 * length buffer)%nat.
Proof.
  intros Hall. unfold hexStringOf.
  assert (Hgen : forall acc,
    allHexDigits acc = true ->
    exists digits,
      fold_left
        (fun hexString byte =>
           String.append hexString (padStart 2 "0" (toString16 byte)))
        buffer (String "0" (String "x" acc))
      = String "0" (String "x" digits) /\
      allHexDigits digits = true /\
      String.length digits = (String.length acc + 2 * length buffer)%nat).
  { induction Hall as [|b buffer Hb _ IH]; intros acc Hacc.
    - exists acc. simpl. repeat split; [exact Hacc|lia].
    - destruct (byte_hex b Hb) as [Hd Hl].
      destruct (IH (String.append acc (padStart 2 "0" (toString16 b))))
        as (digits & Hfold & Hdig & Hlen).
      { rewrite allHexDigits_append, Hacc, Hd. reflexivity. }
      exists digits. split; [exact Hfold|]. split; [exact Hdig|].
      rewrite Hlen, append_length, Hl. simpl. lia. }
  destruct (Hgen ""%string eq_refl) as (digits & Hfold & Hdig & Hlen).
  exists digits. repeat split; assumption.
Qed.

(** X19: whatever the entropy source supplies, the first draw is accepted:
    the masked value is [0] or the single bit [2 ^ (diffLength - 1)],
    which never exceeds [diff].  The value returned is [start] or
    [start + 2 ^ (diffLength - 1)], and the latter is [end + 1] when
    [diff] is a power of two. *)
Lemma random_first_draw (start end_ : Z) (tape : list Z) :
  start <= end_ ->
  Forall (fun b => 0 <= b < 256) tape ->
  ((String.length (toString2 (end_ - start + 1)) + 7) / 8 <= length tape)%nat ->
  exists r,
    random start end_ tape = Some (Ok (start + r)) /\
    (r = 0 \/
     r = 2 ^ (Z.of_nat (String.length (toString2 (end_ - start + 1))) - 1)) /\
    start <= start + r <= end_ + 1.
Proof.
  intros Hse Hall Hlen. unfold random.
  destruct (Z.gtb_spec start end_); [lia|].
  set (diff := end_ - start + 1) in *.
  destruct diff as [|p|p] eqn:Hdiff; try lia.
  rewrite toString2_length_pos in *.
  assert (Hsz : (0 < Pos.size_nat p)%nat) by (destruct p; simpl; lia).
  set (byteSize := ((Pos.size_nat p + 7) / 8)%nat) in *.
  assert (Hbs : (0 < byteSize)%nat).
  { unfold byteSize. apply Nat.div_str_pos. lia. }
  cbn [random_loop]. fold byteSize. unfold randomBytes.
  destruct (Nat.leb_spec byteSize (length tape)); [|lia].
  destruct (hexStringOf_digits (take byteSize tape))
    as (digits & -> & Hdig & Hdl); [apply Forall_take, Hall|].
  rewrite length_take in Hdl.
  unfold BigInt_of_string. rewrite Hdig.
  destruct (Nat.eqb_spec (String.length digits) 0); [lia|].
  cbn [negb andb].
  rewrite Z.shiftl_1_l, land_pow2 by lia.
  pose proof (size_nat_bounds p) as [Hlo _].
  set (v := Z.of_N (HexString.Raw.to_N digits 0)).
  destruct (Z.testbit v (Z.of_nat (Pos.size_nat p) - 1)).
  - destruct (Z.gtb_spec (2 ^ (Z.of_nat (Pos.size_nat p) - 1)) (Z.pos p));
      [lia|].
    eexists. split; [reflexivity|]. split; [right; reflexivity|lia].
  - destruct (Z.gtb_spec 0 (Z.pos p)); [lia|].
    exists 0. split; [reflexivity|]. split; [left; reflexivity|lia].
Qed.

(** C2 fails on the code: with [start = end = 0] and a source that
    supplies the byte [0x01], [random] returns [1]; with [start = 0],
    [end = 1] and the byte [0x02] it returns [2]. *)
Theorem random_exceeds_end :
  random 0 0 [1] = Some (Ok 1) /\ random 0 1 [2] = Some (Ok 2).
Proof. split; reflexivity. Qed.

(** ** Counting *)

Lemma range1_S (N : nat) : range1 (S N) = range1 N ++ [Z.of_nat (S N)].
Proof. unfold range1. rewrite seq_S, map_app. reflexivity. Qed.

Lemma cnt_filter (P : Z -> bool) (N : nat) :
  Z.of_nat (length (List.filter P (range1 N))) = cnt P N.
Proof.
  induction N as [|N IH]; [reflexivity|].
  rewrite range1_S, List.filter_app, length_app, Nat2Z.inj_add, IH.
  cbn [cnt List.filter]. destruct (P (Z.of_nat (S N))); reflexivity.
Qed.

Lemma cnt_ext (P Q : Z -> bool) (N : nat) :
  (forall x, 1 <= x <= Z.of_nat N -> P x = Q x) -> cnt P N = cnt Q N.
Proof.
  induction N as [|N IH]; intros H; [reflexivity|].
  cbn [cnt]. rewrite IH, H by (intros; try apply H; lia). reflexivity.
Qed.

Lemma cnt_false (N : nat) : cnt (fun _ => false) N = 0.
Proof. induction N as [|N IH]; [reflexivity|]. cbn [cnt]. lia. Qed.

Lemma cnt_add (P : Z -> bool) (a b : nat) :
  cnt P (a + b) = cnt P a + cnt (fun j => P (Z.of_nat a + j)) b.
Proof.
  induction b as [|b IH].
  - rewrite Nat.add_0_r. simpl. lia.
  - rewrite Nat.add_succ_r. cbn [cnt]. rewrite IH.
    replace (Z.of_nat (S (a + b))) with (Z.of_nat a + Z.of_nat (S b)) by lia.
    lia.
Qed.

Lemma cnt_split (A B : Z -> bool) (N : nat) :
  cnt A N =
  cnt (fun x => A x && B x) N + cnt (fun x => A x && negb (B x)) N.
Proof.
  induction N as [|N IH]; [reflexivity|]. cbn [cnt]. rewrite IH.
  destruct (A (Z.of_nat (S N))), (B (Z.of_nat (S N))); simpl; lia.
Qed.

(** Coprimality to [m] has period [m]. *)
Lemma cnt_coprime_periodic (m : Z) (k : nat) :
  0 < m ->
  cnt (coprimeb m) (k * Z.to_nat m) =
  Z.of_nat k * cnt (coprimeb m) (Z.to_nat m).
Proof.
  intros Hm. induction k as [|k IH]; [reflexivity|].
  replace (S k * Z.to_nat m)%nat with (k * Z.to_nat m + Z.to_nat m)%nat by lia.
  rewrite cnt_add, IH.
  rewrite (cnt_ext (fun j => coprimeb m (Z.of_nat (k * Z.to_nat m) + j))
             (coprimeb m)); [lia|].
  intros x _. unfold coprimeb. f_equal.
  rewrite Nat2Z.inj_mul, Z2Nat.id by lia.
  rewrite (Z.gcd_comm (Z.of_nat k * m + x) m), (Z.gcd_comm x m).
  rewrite (Z.add_comm (Z.of_nat k * m) x).
  apply Z.gcd_add_mult_diag_r.
Qed.

(** Among [p] consecutive integers after a multiple of [p], only the
    last is a multiple of [p]. *)
Lemma cnt_block (Q : Z -> bool) (p : Z) :
  0 < p ->
  cnt (fun j => Q j && (j mod p =? 0)) (Z.to_nat p) =
  if Q p then 1 else 0.
Proof.
  intros Hp. destruct (Z.to_nat p) as [|n] eqn:Hn; [lia|].
  cbn [cnt].
  rewrite (cnt_ext (fun j => Q j && (j mod p =? 0)) (fun _ => false)),
    cnt_false.
  - replace (Z.of_nat (S n)) with p by lia.
    rewrite Z_mod_same_full. simpl. rewrite andb_true_r. reflexivity.
  - intros x Hx. rewrite Z.mod_small by lia.
    destruct (Z.eqb_spec x 0); [lia|]. apply andb_false_r.
Qed.

(** The multiples of [p] up to [T * p] that satisfy [P] are as many
    as the [y] up to [T] with [P (p * y)]. *)
Lemma cnt_multiples (P : Z -> bool) (p : Z) (T : nat) :
  0 < p ->
  cnt (fun x => P x && (x mod p =? 0)) (T * Z.to_nat p) =
  cnt (fun y => P (p * y)) T.
Proof.
  intros Hp. induction T as [|T IH]; [reflexivity|].
  replace (S T * Z.to_nat p)%nat with (T * Z.to_nat p + Z.to_nat p)%nat by lia.
  rewrite cnt_add, IH. cbn [cnt]. f_equal.
  rewrite (cnt_ext
             (fun j => P (Z.of_nat (T * Z.to_nat p) + j)
                       && ((Z.of_nat (T * Z.to_nat p) + j) mod p =? 0))
             (fun j => P (Z.of_nat (T * Z.to_nat p) + j)
                       && (j mod p =? 0))).
  - rewrite cnt_block by lia.
    replace (Z.of_nat (T * Z.to_nat p) + p) with (p * Z.of_nat (S T)) by nia.
    reflexivity.
  - intros x _. f_equal. f_equal.
    rewrite Nat2Z.inj_mul, Z2Nat.id by lia.
    rewrite Z.add_comm. apply Z_mod_plus_full.
Qed.

(** ** Euler's totient *)

Lemma totient_cnt (n : Z) : totient n = cnt (coprimeb n) (Z.to_nat n).
Proof. unfold totient, count_coprime. apply cnt_filter. Qed.

Lemma totient_one : totient 1 = 1.
Proof. reflexivity. Qed.

Lemma coprime_divide_r (a b c : Z) :
  Z.coprime a b -> (c | b) -> Z.coprime a c.
Proof.
  unfold Z.coprime. intros Hab Hc.
  assert (Hg : (Z.gcd a c | 1)).
  { rewrite <- Hab. apply Z.gcd_greatest; [apply Z.gcd_divide_l|].
    apply Z.divide_trans with c; [apply Z.gcd_divide_r|exact Hc]. }
  apply Z.divide_1_r_nonneg in Hg; [exact Hg|apply Z.gcd_nonneg].
Qed.

(** For a prime [p] and [k > 0], being coprime to [m * p ^ k] is being
    coprime to [m] and not a multiple of [p]. *)
Lemma coprimeb_mul_pow (m p k x : Z) :
  Z.prime p -> 0 < k ->
  coprimeb (m * p ^ k) x = coprimeb m x && negb (x mod p =? 0).
Proof.
  intros Hp Hk. pose proof (Z.prime_ge_2 p Hp) as Hp2.
  apply eq_true_iff_eq. unfold coprimeb.
  rewrite andb_true_iff, negb_true_iff, !Z.eqb_eq, Z.eqb_neq.
  rewrite (Z.mod_divide x p) by lia.
  assert (Hpk : (p | p ^ k)) by (apply Z.divide_pow_same_r; lia).
  split.
  - intros Hrel. split.
    + apply (coprime_divide_r x (m * p ^ k) m Hrel), Z.divide_factor_l.
    + intros Hdiv.
      assert (Hone : (p | 1)).
      { rewrite <- Hrel. apply Z.gcd_greatest; [exact Hdiv|].
        apply Z.divide_trans with (p ^ k); [exact Hpk|].
        apply Z.divide_factor_r. }
      apply Z.divide_1_r_nonneg in Hone; lia.
  - intros [Hm Hnd]. apply Z.coprime_mul_r; [exact Hm|].
    apply Z.coprime_pow_r; [lia|].
    symmetry. apply Z.coprime_prime_l; assumption.
Qed.

Lemma coprimeb_mul_l (m p y : Z) :
  Z.coprime p m -> coprimeb m (p * y) = coprimeb m y.
Proof.
  intros Hpm. apply eq_true_iff_eq. unfold coprimeb.
  rewrite !Z.eqb_eq. split.
  - intros H. rewrite Z.gcd_comm.
    apply (coprime_divide_r m (p * y) y); [|apply Z.divide_factor_r].
    unfold Z.coprime. rewrite Z.gcd_comm. exact H.
  - intros H. apply Z.coprime_mul_l; [exact Hpm|exact H].
Qed.

(** The multiplicative step of the totient: a new prime factor [p],
    with exponent [k], multiplies it by [p ^ k - p ^ (k - 1)]. *)
Lemma totient_prime_power (m p k : Z) :
  Z.prime p -> 0 < m -> Z.coprime p m -> 0 < k ->
  totient (m * p ^ k) = totient m * (p ^ k - p ^ (k - 1)).
Proof.
  intros Hp Hm Hpm Hk. pose proof (Z.prime_ge_2 p Hp) as Hp2.
  assert (Hpk : 0 < p ^ k) by (apply Z.pow_pos_nonneg; lia).
  assert (Hpk1 : 0 < p ^ (k - 1)) by (apply Z.pow_pos_nonneg; lia).
  assert (Hpp : p ^ k = p ^ (k - 1) * p).
  { rewrite Z.mul_comm, <- Z.pow_succ_r by lia. f_equal. lia. }
  rewrite !totient_cnt.
  rewrite (cnt_ext (coprimeb (m * p ^ k))
             (fun x => coprimeb m x && negb (x mod p =? 0)))
    by (intros; apply coprimeb_mul_pow; assumption).
  pose proof (cnt_split (coprimeb m) (fun x => x mod p =? 0)
                (Z.to_nat (m * p ^ k))) as Hsplit.
  cbv beta in Hsplit.
  assert (Hall : cnt (coprimeb m) (Z.to_nat (m * p ^ k)) =
                 p ^ k * cnt (coprimeb m) (Z.to_nat m)).
  { replace (Z.to_nat (m * p ^ k))
      with (Z.to_nat (p ^ k) * Z.to_nat m)%nat
      by (rewrite <- Z2Nat.inj_mul by lia; f_equal; lia).
    rewrite cnt_coprime_periodic by lia. rewrite Z2Nat.id by lia.
    reflexivity. }
  assert (Hmul : cnt (fun x => coprimeb m x && (x mod p =? 0))
                   (Z.to_nat (m * p ^ k)) =
                 p ^ (k - 1) * cnt (coprimeb m) (Z.to_nat m)).
  { replace (Z.to_nat (m * p ^ k))
      with (Z.to_nat (p ^ (k - 1) * m) * Z.to_nat p)%nat
      by (rewrite <- Z2Nat.inj_mul by nia; f_equal; nia).
    rewrite cnt_multiples by lia.
    rewrite (cnt_ext (fun y => coprimeb m (p * y)) (coprimeb m))
      by (intros; apply coprimeb_mul_l; assumption).
    replace (Z.to_nat (p ^ (k - 1) * m))
      with (Z.to_nat (p ^ (k - 1)) * Z.to_nat m)%nat
      by (rewrite <- Z2Nat.inj_mul by lia; reflexivity).
    rewrite cnt_coprime_periodic by lia. rewrite Z2Nat.id by lia.
    reflexivity. }
  lia.
Qed.

(** ** phi *)

Lemma rem_zero_divide (n i : Z) :
  0 <= n -> 0 < i -> (Z.rem n i =? 0) = true <-> (i | n).
Proof.
  intros Hn Hi. rewrite Z.rem_mod_nonneg, Z.eqb_eq by lia.
  apply Z.mod_divide. lia.
Qed.

(** The inner loop divides [n] by [i] as long as it can: it returns
    [n'] with [n = i ^ k * n'] and [i] not dividing [n']. *)
Lemma phi_while_spec (i : Z) (Hi : 2 <= i) (fuel : nat) :
  forall n, 1 <= n -> (Z.to_nat n <= fuel)%nat ->
  exists k n',
    phi_while fuel n i = Some n' /\ 0 <= k /\ n = i ^ k * n' /\
    1 <= n' /\ ~ (i | n') /\ ((i | n) -> 0 < k).
Proof.
  induction fuel as [|fuel IH]; intros n Hn Hfuel; [lia|].
  cbn [phi_while].
  destruct (Z.rem n i =? 0) eqn:Hrem.
  - apply rem_zero_divide in Hrem; [|lia|lia].
    destruct Hrem as [q Hq].
    assert (Hquot : Z.quot n i = q) by (subst n; apply Z.quot_mul; lia).
    assert (Hq1 : 1 <= q) by nia.
    rewrite Hquot.
    destruct (IH q Hq1 ltac:(nia)) as (k & n' & Hw & Hk & Heq & Hn' & Hnd & _).
    exists (k + 1), n'. split; [exact Hw|]. split; [lia|].
    split; [rewrite Z.pow_add_r, Z.pow_1_r by lia; nia|].
    split; [exact Hn'|]. split; [exact Hnd|]. lia.
  - exists 0, n. split; [reflexivity|]. split; [lia|].
    split; [rewrite Z.pow_0_r; lia|]. split; [exact Hn|].
    split; [|intros Hd; apply rem_zero_divide in Hd; [congruence|lia|lia]].
    intros Hd. apply rem_zero_divide in Hd; [congruence|lia|lia].
Qed.

Lemma sieved_prime_divisor (n i : Z) :
  2 <= i -> (forall d, 2 <= d < i -> ~ (d | n)) -> (i | n) -> Z.prime i.
Proof.
  intros Hi Hs Hd. split; [lia|]. intros d Hd1 Hdi.
  apply (Hs d); [lia|]. apply Z.divide_trans with i; assumption.
Qed.

Lemma sieved_prime (n i : Z) :
  2 <= i -> 1 < n -> n < i * i ->
  (forall d, 2 <= d < i -> ~ (d | n)) -> Z.prime n.
Proof.
  intros Hi2 Hn Hi Hs. split; [lia|]. intros d Hd [e He].
  assert (He1 : 1 < e) by nia.
  destruct (Z.lt_ge_cases d i) as [Hlt|Hge].
  - apply (Hs d); [lia|]. exists e. exact He.
  - apply (Hs e); [nia|]. exists d. lia.
Qed.

Section TrialDivision.

(** The argument of [phi]. *)
Variable N : Z.

(** When the loop stops, what is left of [n] is [1] or a prime, and the
    last correction gives the totient of [N]. *)
Lemma phi_exit (n result i m : Z) :
  phi_invariant N n result i m -> n < i * i ->
  (if n >? 1 then result - Z.quot result n else result) = totient N.
Proof.
  intros [Hn Hi Hm Hprod Hcop Hsieve Hres] Hsq.
  destruct (Z.gtb_spec n 1) as [Hgt|Hle].
  - pose proof (sieved_prime n i Hi Hgt Hsq Hsieve) as Hp.
    rewrite Hres, Z.mul_comm, Z.quot_mul by lia.
    rewrite Hprod.
    replace (m * n) with (m * n ^ 1) by (rewrite Z.pow_1_r; reflexivity).
    rewrite (totient_prime_power m n 1 Hp ltac:(lia)
               (Z.Symmetric_coprime m n Hcop) ltac:(lia)).
    rewrite Z.pow_1_r. change (1 - 1) with 0. rewrite Z.pow_0_r. lia.
  - assert (n = 1) by lia. subst n.
    rewrite Hres, Hprod, Z.mul_1_r. lia.
Qed.

(** The outer loop, run from a state that satisfies the invariant with
    enough fuel, stops, and the correction that follows it gives the
    totient of [N]. *)
Lemma phi_for_spec (fuel : nat) :
  forall n result i m,
    phi_invariant N n result i m ->
    (Z.to_nat (n + 1 - i) <= fuel)%nat ->
    exists n' result',
      phi_for fuel n result i = Some (n', result') /\
      (if n' >? 1 then result' - Z.quot result' n' else result') = totient N.
Proof.
  induction fuel as [|fuel IH]; intros n result i m Hinv Hfuel;
    destruct Hinv as [Hn Hi Hm Hprod Hcop Hsieve Hres].
  - cbn [phi_for]. destruct (Z.leb_spec (i * i) n); [nia|].
    exists n, result. split; [reflexivity|].
    apply (phi_exit n result i m); [split; assumption|lia].
  - cbn [phi_for]. destruct (Z.leb_spec (i * i) n) as [Hsq|Hsq].
    + destruct (Z.rem n i =? 0) eqn:Hrem.
      * apply rem_zero_divide in Hrem; [|lia|lia].
        pose proof (sieved_prime_divisor n i Hi Hsieve Hrem) as Hp.
        destruct (phi_while_spec i Hi (Z.to_nat n) n Hn ltac:(lia))
          as (k & n1 & -> & Hk0 & Heq & Hn1 & Hnd & Hk).
        specialize (Hk Hrem).
        assert (Hpk : 0 < i ^ k) by (apply Z.pow_pos_nonneg; lia).
        assert (Hpp : i ^ k = i ^ (k - 1) * i).
        { rewrite Z.mul_comm, <- Z.pow_succ_r by lia. f_equal. lia. }
        assert (Hpk1 : 0 < i ^ (k - 1)) by (apply Z.pow_pos_nonneg; lia).
        assert (Hn1n : (n1 | n)) by (exists (i ^ k); lia).
        assert (Him : Z.coprime i m).
        { symmetry. apply (coprime_divide_r m n i Hcop Hrem). }
        apply (IH n1 (result - Z.quot result i) (i + 1) (m * i ^ k)).
        -- split; [exact Hn1|lia|nia|rewrite Hprod, Heq; ring| | |].
           ++ apply Z.coprime_mul_l.
              ** apply (coprime_divide_r m n n1 Hcop Hn1n).
              ** apply Z.coprime_pow_l; [lia|].
                 apply Z.coprime_prime_l; assumption.
           ++ intros d Hd Hdn.
              destruct (Z.eq_dec d i) as [->|Hne]; [contradiction|].
              apply (Hsieve d); [lia|].
              apply Z.divide_trans with n1; assumption.
           ++ rewrite totient_prime_power by (assumption || lia).
              rewrite Hres.
              replace (n * totient m)
                with (i ^ (k - 1) * n1 * totient m * i) by nia.
              rewrite Z.quot_mul by lia. nia.
        -- nia.
      * apply (IH n result (i + 1) m); [|lia].
        split; try assumption; try lia.
        intros d Hd Hdn.
        destruct (Z.eq_dec d i) as [->|Hne].
        -- apply rem_zero_divide in Hdn; [congruence|lia|lia].
        -- apply (Hsieve d); [lia|assumption].
    + exists n, result. split; [reflexivity|].
      apply (phi_exit n result i m); [split; assumption|lia].
Qed.

End TrialDivision.

(** C9: for every [n >= 1], [phi n] returns Euler's totient of [n],
    the number of integers of [[1, n]] that are coprime to [n]. *)
Theorem phi_is_totient (n : Z) :
  1 <= n -> phi n = Some (totient n).
Proof.
  intros Hn. unfold phi.
  destruct (phi_for_spec n (Z.to_nat n) n n 2 1) as (n' & r' & -> & Hfinal).
  - split; try lia.
    + apply Z.coprime_1_l.
    + rewrite totient_one. lia.
  - lia.
  - rewrite Hfinal. reflexivity.
Qed.

Lemma phi_is_totient_witness :
  1 <= 36 /\ phi 36 = Some (totient 36).
Proof.
  split; [lia|]. apply (phi_is_totient 36). lia.
Defined.

(** * Further properties of the library *)

(** ** toZn *)

(** X1: for a positive modulus [toZn] returns the representative of
    [a] in [[0, m)], on which it is the identity; it throws for any
    other modulus. *)
Theorem toZn_canonical (a m : Z) :
  (0 < m ->
   exists r, toZn a m = Ok r /\ 0 <= r < m /\ r = a mod m /\
             toZn r m = Ok r) /\
  (m <= 0 -> toZn a m = Throw "m must be > 0").
Proof.
  split.
  - intros Hm. exists (a mod m). rewrite !toZn_pos by lia.
    pose proof (Z.mod_pos_bound a m Hm).
    repeat split; try lia. rewrite Z.mod_mod by lia. reflexivity.
  - apply toZn_nonpos.
Qed.

Lemma toZn_canonical_witness :
  exists r, toZn (-7) 3 = Ok r /\ 0 <= r < 3 /\ r = -7 mod 3 /\
            toZn r 3 = Ok r.
Proof. apply (proj1 (toZn_canonical (-7) 3)). lia. Defined.

(** ** gcd and lcm *)

Lemma gcd_abs (a b : Z) : Z.abs (gcd a b) = Z.gcd a b.
Proof.
  funelim (gcd a b).
  - subst b. rewrite Z.gcd_0_r. reflexivity.
  - rewrite H.
    pose proof (Z.quot_rem' a b) as Ha.
    replace (Z.rem a b) with (a + (- Z.quot a b) * b) by lia.
    rewrite Z.gcd_add_mult_diag_r. apply Z.gcd_comm.
Qed.

Lemma gcd_nonneg (a b : Z) : 0 <= a -> 0 <= b -> 0 <= gcd a b.
Proof.
  funelim (gcd a b); intros Ha Hb; [exact Ha|].
  apply H; [lia|]. apply Z.rem_nonneg; lia.
Qed.

(** X2: up to its sign, [gcd] is the greatest common divisor; it is
    the greatest common divisor itself when neither argument is
    negative, and its argument [a], whatever its sign, when [b] is
    zero. *)
Theorem gcd_is_gcd (a b : Z) :
  Z.abs (gcd a b) = Z.gcd a b /\
  (0 <= a -> 0 <= b -> gcd a b = Z.gcd a b) /\
  gcd a 0 = a.
Proof.
  split; [apply gcd_abs|]. split.
  - intros Ha Hb. pose proof (gcd_nonneg a b Ha Hb).
    rewrite <- gcd_abs. lia.
  - simp gcd. reflexivity.
Qed.

Lemma gcd_is_gcd_witness : gcd 12 18 = Z.gcd 12 18.
Proof. apply (proj1 (proj2 (gcd_is_gcd 12 18))); lia. Defined.

(** X3: [lcm] divides by [gcd(a, b)], so it throws a [RangeError] for
    [(0, 0)]; for any other pair its result is, up to the sign, the
    least common multiple, and the least common multiple itself for
    positive arguments. *)
Theorem lcm_is_lcm (a b : Z) :
  lcm 0 0 = Throw "RangeError: Division by zero" /\
  (Z.gcd a b <> 0 ->
   exists r, lcm a b = Ok r /\ Z.abs r = Z.lcm a b /\
             (0 < a -> 0 < b -> r = Z.lcm a b)).
Proof.
  split; [reflexivity|]. intros Hg.
  pose proof (gcd_abs a b) as Habs.
  destruct (Z.gcd_divide_l a b) as [ka Hka].
  destruct (Z.gcd_divide_r a b) as [kb Hkb].
  pose proof (Z.gcd_nonneg a b) as Hnn.
  set (G := Z.gcd a b) in *.
  unfold lcm, divide. destruct (Z.eqb_spec (gcd a b) 0) as [Hz|Hnz]; [lia|].
  cbn [bind]. eexists. split; [reflexivity|].
  assert (Hlcm : Z.lcm a b = Z.abs (G * ka * kb)).
  { unfold Z.lcm. fold G. rewrite Hkb at 1. rewrite Z.div_mul by lia.
    f_equal. lia. }
  assert (Hq : Z.abs (Z.quot a (gcd a b)) = Z.abs ka).
  { destruct (Z.abs_spec (gcd a b)) as [[_ Hp]|[_ Hn]].
    - rewrite Hka at 1. replace (gcd a b) with G by lia.
      rewrite Z.quot_mul by lia. reflexivity.
    - replace a with ((- ka) * gcd a b) at 1 by lia.
      rewrite Z.quot_mul by lia. lia. }
  split.
  - rewrite Hlcm, !Z.abs_mul, Hq. rewrite Hkb at 1. rewrite Z.abs_mul. lia.
  - intros Ha Hb. pose proof (gcd_nonneg a b ltac:(lia) ltac:(lia)).
    rewrite Hlcm. replace (gcd a b) with G by lia.
    rewrite Hka at 1. rewrite Z.quot_mul by lia.
    rewrite Z.abs_eq by nia. rewrite Hkb at 1. lia.
Qed.

Lemma lcm_is_lcm_witness :
  exists r, lcm 4 6 = Ok r /\ Z.abs r = Z.lcm 4 6 /\
            (0 < 4 -> 0 < 6 -> r = Z.lcm 4 6).
Proof.
  apply (proj2 (lcm_is_lcm 4 6)). vm_compute. congruence.
Defined.

(** ** isOdd and isEven *)

(** X4: the remainder of a negative odd number by [2n] is [-1n], so
    [isOdd] holds of the positive odd numbers only and [isEven] holds
    of every negative number. *)
Theorem isOdd_positive_only (n : Z) :
  isOdd n = (0 <? n) && Z.odd n /\
  (n < 0 -> isOdd n = false /\ isEven n = true).
Proof.
  assert (Hneg : n < 0 -> isOdd n = false).
  { intros Hn. unfold isOdd.
    pose proof (Z.rem_nonpos n 2 ltac:(lia) ltac:(lia)).
    destruct (Z.eqb_spec (Z.rem n 2) 1); [lia|reflexivity]. }
  split.
  - destruct (Z.ltb_spec 0 n) as [Hpos|Hle].
    + rewrite isOdd_pos by lia. reflexivity.
    + destruct (Z.eq_dec n 0) as [->|Hne]; [reflexivity|].
      apply Hneg. lia.
  - intros Hn. unfold isEven. rewrite (Hneg Hn). split; reflexivity.
Qed.

Lemma isOdd_positive_only_witness :
  isOdd (-3) = false /\ isEven (-3) = true.
Proof. apply (proj2 (isOdd_positive_only (-3))). lia. Defined.

(** ** max and min *)

Lemma fold_max (rest : list Z) :
  forall first,
    let m := fold_left (fun acc current => if current >? acc then current else acc)
                       rest first in
    In m (first :: rest) /\ Forall (fun x => x <= m) (first :: rest).
Proof.
  induction rest as [|c rest IH]; intros first; cbn [fold_left].
  - split; [left; reflexivity|]. constructor; [lia|constructor].
  - destruct (IH (if c >? first then c else first)) as [Hin Hall].
    apply Forall_cons in Hall as [Hacc Hrest]. split.
    + destruct Hin as [Heq|Hin]; [|right; right; exact Hin].
      rewrite <- Heq. destruct (c >? first); [right; left|left]; reflexivity.
    + destruct (Z.gtb_spec c first); repeat constructor; try lia; assumption.
Qed.

Lemma fold_min (rest : list Z) :
  forall first,
    let m := fold_left (fun acc current => if current <? acc then current else acc)
                       rest first in
    In m (first :: rest) /\ Forall (fun x => m <= x) (first :: rest).
Proof.
  induction rest as [|c rest IH]; intros first; cbn [fold_left].
  - split; [left; reflexivity|]. constructor; [lia|constructor].
  - destruct (IH (if c <? first then c else first)) as [Hin Hall].
    apply Forall_cons in Hall as [Hacc Hrest]. split.
    + destruct Hin as [Heq|Hin]; [|right; right; exact Hin].
      rewrite <- Heq. destruct (c <? first); [right; left|left]; reflexivity.
    + destruct (Z.ltb_spec c first); repeat constructor; try lia; assumption.
Qed.

(** X5: [max] of no number throws a [TypeError]; of at least one
    number it returns one of them that no other exceeds. *)
Theorem max_is_greatest (nums : list Z) :
  BigMath.max [] =
    Throw "TypeError: Reduce of empty array with no initial value" /\
  (nums <> [] ->
   exists m, BigMath.max nums = Ok m /\ In m nums /\
             Forall (fun x => x <= m) nums).
Proof.
  split; [reflexivity|]. intros Hne.
  destruct nums as [|first rest]; [contradiction|].
  eexists. split; [reflexivity|]. apply fold_max.
Qed.

Lemma max_is_greatest_witness :
  exists m, BigMath.max [3; 9; -2; 9] = Ok m /\ In m [3; 9; -2; 9] /\
            Forall (fun x => x <= m) [3; 9; -2; 9].
Proof. apply (proj2 (max_is_greatest [3; 9; -2; 9])). discriminate. Defined.

(** X6: [min] of no number throws a [TypeError]; of at least one
    number it returns one of them that exceeds no other. *)
Theorem min_is_least (nums : list Z) :
  BigMath.min [] =
    Throw "TypeError: Reduce of empty array with no initial value" /\
  (nums <> [] ->
   exists m, BigMath.min nums = Ok m /\ In m nums /\
             Forall (fun x => m <= x) nums).
Proof.
  split; [reflexivity|]. intros Hne.
  destruct nums as [|first rest]; [contradiction|].
  eexists. split; [reflexivity|]. apply fold_min.
Qed.

Lemma min_is_least_witness :
  exists m, BigMath.min [3; 9; -2; 9] = Ok m /\ In m [3; 9; -2; 9] /\
            Forall (fun x => m <= x) [3; 9; -2; 9].
Proof. apply (proj2 (min_is_least [3; 9; -2; 9])). discriminate. Defined.

(** ** modAdd and modMultiply *)

(** X7: [modAdd] throws a [RangeError] for the modulus [0]; for any
    other modulus its result is congruent to [a + b] and smaller than
    the modulus in absolute value.  It is the host's [(a + b) % mod]
    when [a] and [b] have the same sign, but not in general:
    [modAdd(4n, -2n, 3n)] is [-1n] and [(4n + -2n) % 3n] is [2n]. *)
Theorem modAdd_congruent (a b m : Z) :
  modAdd a b 0 = Throw "RangeError: Division by zero" /\
  (m <> 0 ->
   exists r, modAdd a b m = Ok r /\ (m | r - (a + b)) /\
             Z.abs r < Z.abs m /\
             (0 <= a * b -> r = Z.rem (a + b) m)) /\
  (modAdd 4 (-2) 3 = Ok (-1) /\ Z.rem (4 + -2) 3 = 2).
Proof.
  split; [reflexivity|]. split; [|split; reflexivity].
  intros Hm. unfold modAdd, remainder.
  destruct (Z.eqb_spec m 0) as [|_]; [contradiction|]. cbn [bind].
  eexists. split; [reflexivity|].
  pose proof (Z.quot_rem' a m) as Ha.
  pose proof (Z.quot_rem' b m) as Hb.
  pose proof (Z.quot_rem' (Z.rem a m + Z.rem b m) m) as Hs.
  split; [|split].
  - exists (- (Z.quot a m + Z.quot b m
               + Z.quot (Z.rem a m + Z.rem b m) m)). lia.
  - apply Z.rem_bound_abs, Hm.
  - intros Hsign. symmetry. apply Z.add_rem; assumption.
Qed.

Lemma modAdd_congruent_witness :
  exists r, modAdd 5 9 4 = Ok r /\ (4 | r - (5 + 9)) /\
            Z.abs r < Z.abs 4 /\ (0 <= 5 * 9 -> r = Z.rem (5 + 9) 4).
Proof.
  apply (proj1 (proj2 (modAdd_congruent 5 9 4))). lia.
Defined.

(** X8: [modMultiply] throws a [RangeError] for the modulus [0], and
    for any other modulus it is the host's [(a * b) % mod], whatever
    the signs. *)
Theorem modMultiply_is_rem (a b m : Z) :
  modMultiply a b 0 = Throw "RangeError: Division by zero" /\
  (m <> 0 -> modMultiply a b m = Ok (Z.rem (a * b) m)).
Proof.
  split; [reflexivity|]. intros Hm. unfold modMultiply, remainder.
  destruct (Z.eqb_spec m 0) as [|_]; [contradiction|]. cbn [bind].
  f_equal. symmetry. apply Z.mul_rem, Hm.
Qed.

Lemma modMultiply_is_rem_witness :
  modMultiply (-4) 5 3 = Ok (Z.rem (-4 * 5) 3).
Proof. apply (proj2 (modMultiply_is_rem (-4) 5 3)). lia. Defined.

(** ** modInv and modPow *)

Lemma divide_mod_eq (x r K : Z) : (K | x - r) -> x mod K = r mod K.
Proof.
  intros [c Hc]. replace x with (r + c * K) by lia. apply Z_mod_plus_full.
Qed.

(** X9: the inverse of the inverse is the reduced number: when
    [modInv a m] returns [x], [modInv x m] returns [toZn a m]. *)
Theorem modInv_involutive (a m x : Z) :
  0 < m -> modInv a m = Ok x -> modInv x m = Ok (a mod m).
Proof.
  intros Hm Hx.
  destruct (Z.eq_dec (Z.gcd (a mod m) m) 1) as [Hg|Hg];
    [|rewrite modInv_fails in Hx by assumption; discriminate].
  destruct (modInv_succeeds a m Hm Hg) as (x' & Hx' & Hb & Hinv).
  rewrite Hx in Hx'. inversion Hx'; subst x'. clear Hx'.
  assert (Hcop : Z.gcd (x mod m) m = 1).
  { rewrite Z.gcd_mod_l. apply Z.coprime_Bezout.
    exists a, (if m =? 1 then 1 - a * x else - ((a * x) / m)).
    pose proof (Z.div_mod (a * x) m ltac:(lia)) as Hd.
    destruct (Z.eqb_spec m 1) as [->|Hm1]; [lia|].
    rewrite Hinv, Z.mod_small in Hd by lia. lia. }
  destruct (modInv_succeeds x m Hm Hcop) as (y & Hy & Hyb & Hyinv).
  rewrite Hy. f_equal.
  rewrite <- (Z.mod_small y m) by lia.
  rewrite <- (Z.mul_1_r y), <- Z.mul_mod_idemp_r, <- Hinv by lia.
  rewrite Z.mul_mod_idemp_r by lia.
  replace (y * (a * x)) with (a * (x * y)) by lia.
  rewrite <- Z.mul_mod_idemp_r, Hyinv by lia.
  rewrite Z.mul_mod_idemp_r, Z.mul_1_r by lia. reflexivity.
Qed.

Lemma modInv_involutive_witness :
  0 < 7 /\ modInv 3 7 = Ok 5 /\ modInv 5 7 = Ok (3 mod 7).
Proof.
  split; [lia|]. split; [reflexivity|].
  apply (modInv_involutive 3 7 5); [lia|reflexivity].
Defined.

(** X10: for a positive modulus and a non-zero exponent every value
    [modPow] returns lies in [[0, m)], and for a negative exponent it
    is an inverse of [base ^ (- exp)] modulo [m]. *)
Theorem modPow_result (base exp m r : Z) :
  0 < m -> exp <> 0 -> modPow base exp m = Ok r ->
  0 <= r < m /\
  (exp < 0 -> (r * base ^ (- exp)) mod m = 1 mod m).
Proof.
  intros Hm He Hr.
  destruct (Z.lt_trichotomy exp 0) as [Hneg|[Hz|Hpos]]; [|contradiction|].
  - rewrite modPow_negative_exponent in Hr by lia.
    set (p := base ^ (- exp) mod m) in *.
    destruct (Z.eq_dec (Z.gcd (p mod m) m) 1) as [Hg|Hg];
      [|rewrite modInv_fails in Hr by assumption; discriminate].
    destruct (modInv_succeeds p m Hm Hg) as (x & Hx & Hb & Hinv).
    rewrite Hr in Hx. inversion Hx; subst x.
    split; [exact Hb|]. intros _.
    rewrite <- Z.mul_mod_idemp_r by lia. fold p.
    rewrite Z.mul_comm. exact Hinv.
  - rewrite modPow_positive_exponent in Hr by lia.
    inversion Hr; subst r. split; [apply Z.mod_pos_bound; lia|lia].
Qed.

Lemma modPow_result_witness :
  0 <= 5 < 7 /\ (-1 < 0 -> (5 * 3 ^ (- -1)) mod 7 = 1 mod 7).
Proof.
  apply (modPow_result 3 (-1) 7 5); [lia|lia|reflexivity].
Defined.

(** ** phi on the numbers below 2 *)

(** X11: the loop of [phi] is not entered below [4], and no correction
    is made below [2]: [phi] returns [0] and the negative numbers
    unchanged, without an error. *)
Theorem phi_below_two (n : Z) : n <= 1 -> phi n = Some n.
Proof.
  intros Hn. unfold phi.
  destruct (Z.to_nat n) as [|fuel]; cbn [phi_for];
    destruct (Z.leb_spec (2 * 2) n); try lia;
    destruct (Z.gtb_spec n 1); try lia; reflexivity.
Qed.

Lemma phi_below_two_witness : -5 <= 1 /\ phi (-5) = Some (-5).
Proof. split; [lia|]. apply (phi_below_two (-5)). lia. Defined.

(** ** crt *)

Lemma fold_product (l : list Z) :
  forall acc, fold_left (fun acc val => acc * val) l acc = acc * product l.
Proof.
  unfold product. induction l as [|n l IH]; intros acc; cbn [fold_left].
  - lia.
  - rewrite IH, (IH (1 * n)). lia.
Qed.

Lemma product_cons (n : Z) (l : list Z) : product (n :: l) = n * product l.
Proof. unfold product at 1. cbn [fold_left]. rewrite fold_product. lia. Qed.

Lemma product_app (l1 l2 : list Z) :
  product (l1 ++ l2) = product l1 * product l2.
Proof.
  induction l1 as [|n l1 IH]; [unfold product at 2; simpl; lia|].
  rewrite <- app_comm_cons, !product_cons, IH. lia.
Qed.

Lemma product_pos (l : list Z) :
  Forall (fun n => 0 < n) l -> 0 < product l.
Proof.
  induction 1 as [|n l Hn _ IH]; [reflexivity|].
  rewrite product_cons. lia.
Qed.

Lemma divide_product (l : list Z) :
  forall (j : nat) (K : Z), l !! j = Some K -> (K | product l).
Proof.
  induction l as [|n l IH]; intros j K Hj; [discriminate|].
  rewrite product_cons. destruct j as [|j].
  - inversion Hj; subst. apply Z.divide_factor_l.
  - apply Z.divide_mul_r. exact (IH j K Hj).
Qed.

Lemma coprime_product (l : list Z) (n : Z) :
  Forall (fun a => Z.coprime a n) l -> Z.coprime (product l) n.
Proof.
  induction 1 as [|a l Ha _ IH]; [apply Z.coprime_1_l|].
  rewrite product_cons. apply Z.coprime_mul_l; assumption.
Qed.

(** What each modulus of a pairwise coprime list is to the product:
    the quotient is coprime to it and a multiple of every other
    modulus. *)
Lemma crt_element (num : list Z) (i : nat) (n : Z) :
  Forall (fun n => 0 < n) num -> pairwiseCoprime num -> num !! i = Some n ->
  0 < n /\
  Z.coprime (Z.quot (product num) n) n /\
  forall (j : nat) (K : Z),
    j <> i -> num !! j = Some K -> (K | Z.quot (product num) n).
Proof.
  intros Hpos Hpair Hi.
  pose proof (Forall_lookup_1 _ _ _ _ Hpos Hi) as Hn. cbv beta in Hn.
  assert (Hq : Z.quot (product num) n =
               product (take i num) * product (drop (S i) num)).
  { rewrite <- (take_drop_middle num i n Hi) at 1.
    rewrite product_app, product_cons.
    replace (product (take i num) * (n * product (drop (S i) num)))
      with (product (take i num) * product (drop (S i) num) * n) by lia.
    apply Z.quot_mul. lia. }
  rewrite Hq. split; [exact Hn|]. split.
  - apply Z.coprime_mul_l; apply coprime_product, Forall_lookup_2;
      intros j a Hj.
    + apply lookup_take_Some in Hj as [Hj Hlt].
      apply (Hpair j i a n); [lia|assumption|assumption].
    + rewrite lookup_drop in Hj.
      apply (Hpair (S i + j)%nat i a n); [lia|assumption|assumption].
  - intros j K Hne Hj. destruct (Nat.lt_ge_cases j i) as [Hlt|Hge].
    + apply Z.divide_mul_l, (divide_product _ j).
      apply lookup_take_Some. split; assumption.
    + apply Z.divide_mul_r, (divide_product _ (j - S i)).
      rewrite lookup_drop. replace (S i + (j - S i))%nat with j by lia.
      exact Hj.
Qed.

Section ChineseRemainder.

(** The product of the moduli, and the modulus [K] whose congruence
    is followed through the loop. *)
Variables P K : Z.

Lemma crt_loop_others (num : list Z) :
  forall (rem : list Z) (sum : Z),
    length num = length rem -> Forall (otherModulus P K) num ->
    exists total, crt_loop P num rem sum = Ok total /\ (K | total - sum).
Proof.
  induction num as [|n num IH]; intros rem sum Hlen Hall.
  - exists sum. split; [reflexivity|]. exists 0. lia.
  - destruct rem as [|r rem]; [discriminate|].
    apply Forall_cons in Hall as [(Hn & Hcop & [c Hc]) Hall].
    cbn [crt_loop]. unfold divide.
    destruct (Z.eqb_spec n 0); [lia|]. cbn [bind].
    destruct (modInv_succeeds (Z.quot P n) n Hn) as (inv & -> & _).
    { rewrite Z.gcd_mod_l. exact Hcop. }
    cbn [bind].
    destruct (IH rem (sum + r * inv * Z.quot P n)) as (total & Ht & [d Hd]);
      [simpl in Hlen; lia|exact Hall|].
    exists total. split; [exact Ht|].
    exists (d + r * inv * c). rewrite Hc in Hd. lia.
Qed.

Lemma crt_loop_at (rK : Z) (post post_r : list Z) (pre : list Z) :
  forall (pre_r : list Z) (sum : Z),
    length pre = length pre_r -> length post = length post_r ->
    Forall (otherModulus P K) pre -> Forall (otherModulus P K) post ->
    0 < K -> Z.coprime (Z.quot P K) K ->
    exists total,
      crt_loop P (pre ++ K :: post) (pre_r ++ rK :: post_r) sum = Ok total /\
      (K | total - (sum + rK)).
Proof.
  induction pre as [|n pre IH]; intros pre_r sum Hlen Hlen' Hpre Hpost HK Hcop.
  - destruct pre_r; [|discriminate]. cbn [app crt_loop]. unfold divide.
    destruct (Z.eqb_spec K 0); [lia|]. cbn [bind].
    destruct (modInv_succeeds (Z.quot P K) K HK) as (inv & -> & _ & Hinv).
    { rewrite Z.gcd_mod_l. exact Hcop. }
    cbn [bind].
    destruct (crt_loop_others post post_r (sum + rK * inv * Z.quot P K)
                Hlen' Hpost) as (total & Ht & [d Hd]).
    exists total. split; [exact Ht|].
    assert (Hone : (K | Z.quot P K * inv - 1)).
    { apply Z.mod_divide; [lia|].
      rewrite Zminus_mod, Hinv, <- Zminus_mod. reflexivity. }
    destruct Hone as [e He].
    exists (d + rK * e).
    replace (rK * inv * Z.quot P K) with (rK * (Z.quot P K * inv)) in Hd
      by ring.
    replace (Z.quot P K * inv) with (e * K + 1) in Hd by lia. lia.
  - destruct pre_r as [|r pre_r]; [discriminate|].
    apply Forall_cons in Hpre as [(Hn & Hcn & [c Hc]) Hpre].
    cbn [app crt_loop]. unfold divide.
    destruct (Z.eqb_spec n 0); [lia|]. cbn [bind].
    destruct (modInv_succeeds (Z.quot P n) n Hn) as (inv & -> & _).
    { rewrite Z.gcd_mod_l. exact Hcn. }
    cbn [bind].
    destruct (IH pre_r (sum + r * inv * Z.quot P n)) as (total & Ht & [d Hd]);
      try assumption; [simpl in Hlen; lia|].
    exists total. split; [exact Ht|].
    exists (d + r * inv * c). rewrite Hc in Hd. lia.
Qed.

End ChineseRemainder.

(** X12: for positive moduli that are coprime two by two, and as many
    remainders, [crt] returns a solution of every congruence:
    [x mod num[i] = rem[i] mod num[i]] for each [i]. *)
Theorem crt_solves (num rem : list Z) :
  length num = length rem ->
  Forall (fun n => 0 < n) num -> pairwiseCoprime num ->
  exists x,
    crt num rem = Ok x /\
    forall (i : nat) (n r : Z),
      num !! i = Some n -> rem !! i = Some r -> x mod n = r mod n.
Proof.
  intros Hlen Hpos Hpair. unfold crt. fold (product num).
  pose proof (product_pos num Hpos) as HP.
  destruct (crt_loop_others (product num) 1 num rem 0 Hlen) as (total & Ht & _).
  { apply Forall_lookup_2. intros i n Hi.
    destruct (crt_element num i n Hpos Hpair Hi) as (Hn & Hc & _).
    split; [exact Hn|]. split; [exact Hc|]. apply Z.divide_1_l. }
  rewrite Ht. cbn [bind]. unfold remainder.
  destruct (Z.eqb_spec (product num) 0) as [|_]; [lia|].
  eexists. split; [reflexivity|]. intros i n r Hi Hr.
  destruct (crt_element num i n Hpos Hpair Hi) as (Hn & Hc & Hdiv).
  pose proof (lookup_lt_Some _ _ _ Hi) as Hlt.
  assert (Hothers : forall j x, j <> i -> num !! j = Some x ->
                                otherModulus (product num) n x).
  { intros j x Hne Hj.
    destruct (crt_element num j x Hpos Hpair Hj) as (Hx & Hcx & Hdx).
    split; [exact Hx|]. split; [exact Hcx|]. apply (Hdx i n); [lia|exact Hi]. }
  destruct (crt_loop_at (product num) n r
              (drop (S i) num) (drop (S i) rem) (take i num) (take i rem) 0)
    as (total' & Ht' & [d Hd]); try assumption.
  - rewrite !length_take. lia.
  - rewrite !length_drop. lia.
  - apply Forall_lookup_2. intros j x Hj.
    apply lookup_take_Some in Hj as [Hj Hji]. apply (Hothers j); [lia|exact Hj].
  - apply Forall_lookup_2. intros j x Hj. rewrite lookup_drop in Hj.
    apply (Hothers (S i + j)%nat); [lia|exact Hj].
  - rewrite (take_drop_middle num i n Hi), (take_drop_middle rem i r Hr) in Ht'.
    rewrite Ht in Ht'. inversion Ht'; subst total'.
    apply divide_mod_eq.
    destruct (divide_product num i n Hi) as [c Hc'].
    pose proof (Z.quot_rem' total (product num)) as Hqr.
    exists (d - c * Z.quot total (product num)). nia.
Qed.

Lemma crt_solves_witness :
  exists x,
    crt [3; 5; 7] [2; 3; 2] = Ok x /\
    forall (i : nat) (n r : Z),
      [3; 5; 7] !! i = Some n -> [2; 3; 2] !! i = Some r ->
      x mod n = r mod n.
Proof.
  apply (crt_solves [3; 5; 7] [2; 3; 2]).
  - reflexivity.
  - repeat (constructor; [lia|]). constructor.
  - intros [|[|[|i]]] [|[|[|j]]] a b Hne Ha Hb;
      try discriminate; try contradiction;
      inversion Ha; inversion Hb; subst; reflexivity.
Defined.

Example crt_3_5_7 : crt [3; 5; 7] [2; 3; 2] = Ok 23.
Proof. reflexivity. Qed.

Lemma crt_loop_outcome (P : Z) (num : list Z) :
  forall (rem : list Z) (sum : Z),
    (length num <= length rem)%nat -> Forall (fun n => 0 < n) num ->
    (exists total, crt_loop P num rem sum = Ok total /\
                   Forall (fun n => Z.gcd (Z.quot P n) n = 1) num) \/
    crt_loop P num rem sum = Throw "Modular inverse does not exist".
Proof.
  induction num as [|n num IH]; intros rem sum Hlen Hpos.
  - left. exists sum. split; [reflexivity|constructor].
  - destruct rem as [|r rem]; [simpl in Hlen; lia|].
    apply Forall_cons in Hpos as [Hn Hpos].
    cbn [crt_loop]. unfold divide.
    destruct (Z.eqb_spec n 0); [lia|]. cbn [bind].
    destruct (Z.eq_dec (Z.gcd (Z.quot P n mod n) n) 1) as [Hg|Hg].
    + destruct (modInv_succeeds (Z.quot P n) n Hn Hg) as (inv & -> & _).
      cbn [bind].
      destruct (IH rem (sum + r * inv * Z.quot P n)) as [(t & Ht & Hall)|Hthrow];
        [simpl in Hlen; lia|exact Hpos| |right; exact Hthrow].
      left. exists t. split; [exact Ht|].
      constructor; [|exact Hall]. rewrite <- Z.gcd_mod_l. exact Hg.
    + right. rewrite modInv_fails by assumption. reflexivity.
Qed.

(** X13: the moduli are validated after all: when two of the positive
    moduli have a common factor, [crt] throws the error of [modInv]
    instead of returning a number. *)
Theorem crt_rejects_common_factor (num rem : list Z) (i j : nat) (a b : Z) :
  (length num <= length rem)%nat -> Forall (fun n => 0 < n) num ->
  i <> j -> num !! i = Some a -> num !! j = Some b -> Z.gcd a b <> 1 ->
  crt num rem = Throw "Modular inverse does not exist".
Proof.
  intros Hlen Hpos Hne Hi Hj Hg. unfold crt. fold (product num).
  destruct (crt_loop_outcome (product num) num rem 0 Hlen Hpos)
    as [(t & _ & Hall) | ->]; [|reflexivity].
  exfalso. apply Hg.
  pose proof (Forall_lookup_1 _ _ _ _ Hall Hi) as Hone. cbv beta in Hone.
  pose proof (Forall_lookup_1 _ _ _ _ Hpos Hi) as Ha. cbv beta in Ha.
  assert (Hq : Z.quot (product num) a =
               product (take i num) * product (drop (S i) num)).
  { rewrite <- (take_drop_middle num i a Hi) at 1.
    rewrite product_app, product_cons.
    replace (product (take i num) * (a * product (drop (S i) num)))
      with (product (take i num) * product (drop (S i) num) * a) by lia.
    apply Z.quot_mul. lia. }
  assert (Hb : (b | Z.quot (product num) a)).
  { rewrite Hq. destruct (Nat.lt_ge_cases j i) as [Hlt|Hge].
    - apply Z.divide_mul_l, (divide_product _ j).
      apply lookup_take_Some. split; assumption.
    - apply Z.divide_mul_r, (divide_product _ (j - S i)).
      rewrite lookup_drop. replace (S i + (j - S i))%nat with j by lia.
      exact Hj. }
  assert (Hd : (Z.gcd a b | 1)).
  { rewrite <- Hone. apply Z.gcd_greatest; [|apply Z.gcd_divide_l].
    apply Z.divide_trans with b; [apply Z.gcd_divide_r|exact Hb]. }
  apply Z.divide_1_r_nonneg in Hd; [exact Hd|apply Z.gcd_nonneg].
Qed.

Lemma crt_rejects_common_factor_witness :
  crt [4; 6] [1; 1] = Throw "Modular inverse does not exist".
Proof.
  apply (crt_rejects_common_factor [4; 6] [1; 1] 0 1 4 6);
    try reflexivity; try lia.
  - repeat (constructor; [lia|]). constructor.
  - vm_compute. congruence.
Defined.

(** ** hexToBigint and toBigint *)

Lemma substring_full (s : string) : substring 0 (String.length s) s = s.
Proof. induction s as [|c s IH]; [reflexivity|]. simpl. rewrite IH. reflexivity. Qed.

Lemma hexDigit_not_minus (c : ascii) (rest : string) :
  isHexDigit c = true -> String.prefix "-" (String c rest) = false.
Proof.
  intros Hc. cbn [String.prefix].
  destruct (ascii_dec "-" c) as [<-|]; [discriminate|reflexivity].
Qed.

Lemma hex_digits_nonempty (p : positive) :
  exists c rest,
    HexString.Raw.of_pos p "" = String c rest /\ isHexDigit c = true.
Proof.
  pose proof (hex_all_digits p "") as Hall.
  pose proof (hex_leading p "") as Hlead.
  destruct (HexString.Raw.of_pos p "") as [|c rest]; [discriminate|].
  exists c, rest. split; [reflexivity|].
  cbn [allHexDigits] in Hall. apply andb_prop in Hall as [Hc _]. exact Hc.
Qed.

Lemma BigInt_of_digits (digits : string) :
  BigInt_of_string (String.append "0x" digits) =
  if negb (String.length digits =? 0)%nat && allHexDigits digits
  then Ok (Z.of_N (HexString.Raw.to_N digits 0))
  else Throw "SyntaxError: Cannot convert to a BigInt".
Proof. reflexivity. Qed.

Lemma BigInt_of_hex (p : positive) :
  BigInt_of_string (String.append "0x" (HexString.Raw.of_pos p ""))
  = Ok (Z.pos p).
Proof.
  rewrite BigInt_of_digits, hex_all_digits, hex_value.
  destruct (hex_digits_nonempty p) as (c & rest & -> & _). reflexivity.
Qed.

(** X14: [hexToBigint] reads back what [bigintToHex] writes, for every
    integer without padding and for every non-negative integer with
    padding.  A padded negative number is read back only when its
    string, sign included, has an even length; otherwise the padding
    zero comes before the sign and [BigInt] throws a [SyntaxError]. *)
Theorem hexToBigint_bigintToHex (n : Z) :
  hexToBigint (bigintToHex n false) = Ok n /\
  (0 <= n -> hexToBigint (bigintToHex n true) = Ok n) /\
  (n < 0 ->
   hexToBigint (bigintToHex n true) =
   if (String.length (toString16 n) mod 2 =? 0)%nat then Ok n
   else Throw "SyntaxError: Cannot convert to a BigInt").
Proof.
  assert (Hplain : hexToBigint (bigintToHex n false) = Ok n).
  { unfold bigintToHex. cbn [negb]. destruct n as [|p|p]; [reflexivity| |].
    - unfold hexToBigint. cbn [toString16]. cbv zeta.
      destruct (hex_digits_nonempty p) as (c & rest & Heq & Hc).
      assert (Hpre : String.prefix "-" (HexString.Raw.of_pos p "") = false)
        by (rewrite Heq; apply hexDigit_not_minus, Hc).
      rewrite Hpre, BigInt_of_hex. reflexivity.
    - unfold hexToBigint. cbv zeta.
      cbn [toString16 String.prefix String.length].
      destruct (ascii_dec "-" "-") as [_|Hne]; [|contradiction].
      replace (String.prefix "" (HexString.Raw.of_pos p "")) with true
        by (destruct (HexString.Raw.of_pos p ""); reflexivity).
      replace (S (String.length (HexString.Raw.of_pos p "")) - 1)%nat
        with (String.length (HexString.Raw.of_pos p "")) by lia.
      cbn [substring]. rewrite substring_full, BigInt_of_hex. reflexivity. }
  split; [exact Hplain|]. split.
  - intros Hn. destruct n as [|p|p]; [reflexivity| |lia].
    unfold bigintToHex, hexToBigint. cbn [negb toString16]. cbv zeta.
    destruct (hex_digits_nonempty p) as (c & rest & Heq & Hc).
    assert (Hpre : String.prefix "-" (hexPadZero (HexString.Raw.of_pos p ""))
                   = false).
    { unfold hexPadZero. destruct (negb _); [reflexivity|].
      rewrite Heq. apply hexDigit_not_minus, Hc. }
    rewrite Hpre, BigInt_of_digits.
    rewrite hexPadZero_digits, hex_all_digits, hexPadZero_value, hex_value.
    replace (String.length (hexPadZero (HexString.Raw.of_pos p "")) =? 0)%nat
      with false; [reflexivity|].
    unfold hexPadZero. rewrite Heq. destruct (negb _); reflexivity.
  - intros Hn. destruct n as [|p|p]; try lia.
    unfold bigintToHex at 1. cbn [negb]. unfold hexPadZero.
    destruct (String.length (toString16 (Z.neg p)) mod 2 =? 0)%nat.
    + cbn [negb]. exact Hplain.
    + cbn [negb]. reflexivity.
Qed.

Lemma hexToBigint_bigintToHex_witness :
  hexToBigint (bigintToHex 255 true) = Ok 255 /\
  hexToBigint (bigintToHex (-255) true) =
    (if (String.length (toString16 (-255)) mod 2 =? 0)%nat then Ok (-255)
     else Throw "SyntaxError: Cannot convert to a BigInt").
Proof.
  split.
  - apply (proj1 (proj2 (hexToBigint_bigintToHex 255))). lia.
  - apply (proj2 (proj2 (hexToBigint_bigintToHex (-255)))). lia.
Defined.




Example toBigint_test_binary :
  toBigint_radix "111010110111100110100010101" 2 = Ok 123456789.
Proof. reflexivity. Qed.

Example toBigint_test_hex : toBigint_radix "75bcd15" 16 = Ok 123456789.
Proof. reflexivity. Qed.

(** ** More on the byte codec *)

Lemma roundtrip_negative_witness :
  -123456789 < 0 /\
  exists bytes,
    bigintToUint8 (-123456789) true = Ok bytes /\
    fst (uint8ToBigint_body bytes true) = -123456789.
Proof. split; [lia|]. apply (roundtrip_negative (-123456789)). lia. Defined.

Lemma roundtrip_plain_witness :
  0 <= 255 /\
  exists bytes,
    bigintToUint8 255 false = Ok bytes /\
    uint8ToBigint_body bytes false = (255, bytes).
Proof. split; [lia|]. apply (roundtrip_plain 255). lia. Defined.

Lemma roundtrip_flag_nonneg_witness :
  0 <= 255 /\
  exists bytes,
    bigintToUint8 255 true = Ok bytes /\
    fst (uint8ToBigint_body bytes true) =
    if byteAt bytes 0 <? 128 then 255
    else 255 - 256 ^ Z.of_nat (length bytes).
Proof. split; [lia|]. apply (roundtrip_flag_nonneg 255). lia. Defined.

Lemma random_first_draw_witness :
  exists r,
    random 10 13 [2; 7] = Some (Ok (10 + r)) /\
    (r = 0 \/
     r = 2 ^ (Z.of_nat (String.length (toString2 (13 - 10 + 1))) - 1)) /\
    10 <= 10 + r <= 13 + 1.
Proof.
  apply (random_first_draw 10 13 [2; 7]).
  - lia.
  - repeat (constructor; [lia|]). constructor.
  - vm_compute. lia.
Defined.

(** X20: for a non-negative number, with or without the flag,
    [bigintToUint8] returns its shortest big-endian representation:
    no sequence of at least one byte that denotes the number is
    shorter. *)
Theorem bigintToUint8_unsigned_minimal (n : Z) (flag : bool) :
  0 <= n ->
  exists bytes,
    bigintToUint8 n flag = Ok bytes /\
    Forall (fun b => 0 <= b < 256) bytes /\
    bigEndian bytes = n /\ bytes <> [] /\
    forall other,
      Forall (fun b => 0 <= b < 256) other -> other <> [] ->
      bigEndian other = n -> (length bytes <= length other)%nat.
Proof.
  intros Hn. unfold bigintToUint8.
  destruct (Z.ltb_spec n 0); [lia|]. cbn [bind].
  destruct (hexToUint8_nonneg n Hn) as (Hr & Hv & Hzero & Hpos).
  eexists. split; [reflexivity|]. split; [exact Hr|]. split; [exact Hv|].
  destruct (Z.eq_dec n 0) as [Hz|Hnz].
  - rewrite (Hzero Hz). split; [discriminate|].
    intros other _ Hne _. destruct other; [contradiction|simpl; lia].
  - destruct (Hpos ltac:(lia)) as (b & bytes & Heq & Hb). rewrite Heq in *.
    split; [discriminate|]. intros other Ho _ Hvo.
    pose proof (bigEndian_lower b bytes Hr Hb) as Hlow.
    pose proof (bigEndian_range other Ho) as [_ Hup].
    destruct (Nat.le_gt_cases (length (b :: bytes)) (length other))
      as [|Hgt]; [assumption|].
    pose proof (Z.pow_le_mono_r 256 (Z.of_nat (length other))
                  (Z.of_nat (length bytes)) ltac:(lia)
                  ltac:(simpl in Hgt; lia)).
    lia.
Qed.

Lemma bigintToUint8_unsigned_minimal_witness :
  exists bytes,
    bigintToUint8 123456789 true = Ok bytes /\
    Forall (fun b => 0 <= b < 256) bytes /\
    bigEndian bytes = 123456789 /\ bytes <> [] /\
    forall other,
      Forall (fun b => 0 <= b < 256) other -> other <> [] ->
      bigEndian other = 123456789 -> (length bytes <= length other)%nat.
Proof. apply (bigintToUint8_unsigned_minimal 123456789 true). lia. Defined.

Lemma bigEndian_first_byte (b : Z) (bytes : list Z) :
  Forall (fun b => 0 <= b < 256) (b :: bytes) ->
  b * 256 ^ Z.of_nat (length bytes) <= bigEndian (b :: bytes) <
  (b + 1) * 256 ^ Z.of_nat (length bytes).
Proof.
  intros Hall. apply Forall_cons in Hall as [_ Hrest].
  rewrite bigEndian_cons. pose proof (bigEndian_range bytes Hrest). lia.
Qed.

(** X21: with the flag, [uint8ToBigint] returns the two's-complement
    value of the bytes it is given: the big-endian number, less
    [256 ^ length] when the sign bit of the first byte is set, a
    number of [[- 2 ^ (8 * length - 1), 2 ^ (8 * length - 1))]. *)
Theorem uint8ToBigintWithNegative_value (l : loc) (h : gmap loc (list Z))
    (b : list Z) :
  h !! l = Some b -> Forall (fun x => 0 <= x < 256) b -> b <> [] ->
  exists r h',
    uint8ToBigintWithNegative l h = Some (r, h') /\
    r = bigEndian b
        - (if 128 <=? byteAt b 0 then 256 ^ Z.of_nat (length b) else 0) /\
    fitsTwosComplement (Z.of_nat (length b)) r.
Proof.
  intros Hl Hall Hne. unfold uint8ToBigintWithNegative, uint8ToBigint.
  rewrite Hl. destruct b as [|x b]; [contradiction|].
  pose proof (bigEndian_first_byte x b Hall) as Hfirst.
  assert (Hx : 0 <= x < 256) by (apply Forall_cons in Hall as [Hx _]; exact Hx).
  assert (Hpow : 0 < 256 ^ Z.of_nat (length b))
    by (apply Z.pow_pos_nonneg; lia).
  assert (Hfit : 2 ^ (8 * Z.of_nat (length (x :: b)) - 1)
                 = 128 * 256 ^ Z.of_nat (length b)).
  { cbn [length]. rewrite Nat2Z.inj_succ, pow256 by lia.
    replace (8 * Z.succ (Z.of_nat (length b)) - 1)
      with (7 + 8 * Z.of_nat (length b)) by lia.
    rewrite Z.pow_add_r by lia. reflexivity. }
  assert (Hlen : 256 ^ Z.of_nat (length (x :: b))
                 = 256 * 256 ^ Z.of_nat (length b)).
  { cbn [length]. rewrite Nat2Z.inj_succ, Z.pow_succ_r by lia. reflexivity. }
  change (byteAt (x :: b) 0) with x.
  destruct (Z.leb_spec 128 x) as [Hs|Hs].
  - destruct (uint8ToBigint_body_negative (x :: b) Hall Hs)
      as (b' & -> & _ & _ & Hv).
    eexists _, _. split; [reflexivity|]. rewrite Hv.
    split; [lia|]. unfold fitsTwosComplement. rewrite Hfit.
    rewrite Hlen. simpl length. nia.
  - rewrite uint8ToBigint_body_plain.
    + eexists _, _. split; [reflexivity|]. split; [lia|].
      unfold fitsTwosComplement. rewrite Hfit. simpl length. nia.
    + change (byteAt (x :: b) 0) with x. rewrite (sign_bit x Hx).
      destruct (Z.ltb_spec x 128); [reflexivity|lia].
Qed.

Lemma uint8ToBigintWithNegative_value_witness :
  exists r h',
    uint8ToBigintWithNegative 1%positive {[1%positive := [255; 129]]}
      = Some (r, h') /\
    r = bigEndian [255; 129]
        - (if 128 <=? byteAt [255; 129] 0
           then 256 ^ Z.of_nat (length [255; 129]) else 0) /\
    fitsTwosComplement (Z.of_nat (length [255; 129])) r.
Proof.
  apply (uint8ToBigintWithNegative_value 1%positive
           {[1%positive := [255; 129]]} [255; 129]).
  - apply lookup_singleton_eq.
  - repeat (constructor; [lia|]). constructor.
  - discriminate.
Defined.

(** X22: decoding is not repeatable.  The array that holds the
    encoding of a negative [v] gives [v] when decoded with the flag,
    and is left holding the magnitude; decoded again, the same array
    gives [- v] and stays as it is. *)
Theorem uint8ToBigint_twice (v : Z) (l : loc) (h : gmap loc (list Z))
    (bytes : list Z) :
  v < 0 -> bigintToUint8 v true = Ok bytes -> h !! l = Some bytes ->
  exists h1,
    uint8ToBigint l true h = Some (v, h1) /\
    uint8ToBigint l true h1 = Some (- v, h1).
Proof.
  intros Hv Henc Hl. destruct v as [|p|p]; try lia.
  destruct (bigintToUint8_negative p) as (b & bs & Henc' & Hr & Hval & Hk & Hs).
  rewrite Henc in Henc'. inversion Henc'; subst bytes. clear Henc'.
  destruct (negative_bits p) as (_ & _ & _ & _ & Hp).
  set (bits := (Z.quot (Z.of_nat (String.length (toString2 (Z.neg p)))) 8 + 1)
               * 8) in *.
  destruct (uint8ToBigint_body_negative (b :: bs) Hr Hs)
    as (b' & Hbody & Hlen & Hr' & Hv').
  assert (Hmag : bigEndian b' = Z.pos p).
  { rewrite Hv', Hval, pow256, Hk by lia. lia. }
  unfold uint8ToBigint at 1. rewrite Hl, Hbody.
  exists (<[l := b']> h). split; [rewrite Hmag; reflexivity|].
  unfold uint8ToBigint. rewrite lookup_insert_eq.
  rewrite uint8ToBigint_body_plain.
  - rewrite Hmag, insert_insert_eq. reflexivity.
  - destruct b' as [|x b']; [reflexivity|].
    change (byteAt (x :: b') 0) with x.
    assert (Hx : 0 <= x < 256)
      by (apply Forall_cons in Hr' as [Hx _]; exact Hx).
    rewrite (sign_bit x Hx).
    destruct (Z.ltb_spec x 128) as [|Hge]; [reflexivity|].
    exfalso.
    pose proof (bigEndian_first_byte x b' Hr') as [Hlow _].
    rewrite Hmag in Hlow.
    assert (Hpow : 0 < 256 ^ Z.of_nat (length b'))
      by (apply Z.pow_pos_nonneg; lia).
    assert (Hb2 : 2 ^ (bits - 2) = 64 * 256 ^ Z.of_nat (length b')).
    { rewrite <- Hk, <- Hlen. cbn [length].
      rewrite Nat2Z.inj_succ, pow256 by lia.
      replace (8 * Z.succ (Z.of_nat (length b')) - 2)
        with (6 + 8 * Z.of_nat (length b')) by lia.
      rewrite Z.pow_add_r by lia. reflexivity. }
    nia.
Qed.

Lemma uint8ToBigint_twice_witness :
  exists h1,
    uint8ToBigint 1%positive true {[1%positive := [248; 164; 50; 235]]}
      = Some (-123456789, h1) /\
    uint8ToBigint 1%positive true h1 = Some (- -123456789, h1).
Proof.
  apply (uint8ToBigint_twice (-123456789) 1%positive
           {[1%positive := [248; 164; 50; 235]]} [248; 164; 50; 235]).
  - lia.
  - reflexivity.
  - apply lookup_singleton_eq.
Defined.

(** X23: [uint8ToHex] of the bytes written for a non-negative number
    is the hexadecimal string of the number, without the padding zero,
    and leaves the array as it was. *)
Theorem uint8ToHex_bigintToUint8 (n : Z) (l : loc) (h : gmap loc (list Z))
    (bytes : list Z) :
  0 <= n -> bigintToUint8 n false = Ok bytes -> h !! l = Some bytes ->
  uint8ToHex l false h = Some (bigintToHex n false, h).
Proof.
  intros Hn Henc Hl. unfold bigintToUint8 in Henc.
  destruct (Z.ltb_spec n 0); [lia|]. cbn [bind] in Henc.
  inversion Henc; subst bytes. clear Henc.
  destruct (hexToUint8_nonneg n Hn) as (_ & Hv & _).
  unfold uint8ToHex, uint8ToBigint. rewrite Hl.
  rewrite uint8ToBigint_body_plain by reflexivity.
  rewrite Hv, insert_id by exact Hl. reflexivity.
Qed.

Lemma uint8ToHex_bigintToUint8_witness :
  uint8ToHex 1%positive false {[1%positive := [7; 91; 205; 21]]}
  = Some (bigintToHex 123456789 false, {[1%positive := [7; 91; 205; 21]]}).
Proof.
  apply (uint8ToHex_bigintToUint8 123456789 1%positive
           {[1%positive := [7; 91; 205; 21]]} [7; 91; 205; 21]).
  - lia.
  - reflexivity.
  - apply lookup_singleton_eq.
Defined.

(** ** eGcd and gcd together *)

Lemma gcd_zero (a : Z) : gcd a 0 = a.
Proof. now simp gcd. Qed.

Lemma gcd_step (a b : Z) : b <> 0 -> gcd a b = gcd b (Z.rem a b).
Proof.
  intros Hb. etransitivity; [apply gcd_equation_1|].
  destruct (Z.eq_dec b 0); [contradiction|]. reflexivity.
Qed.

(** X24: the [g] of [eGcd(a, b)] is [gcd(b, a)], sign included, for
    all integers; and [gcd] itself is not symmetric in the sign:
    [gcd(3n, -3n)] is [-3n] and [gcd(-3n, 3n)] is [3n]. *)
Theorem eGcd_g_is_gcd (a b : Z) :
  EGcd.g (eGcd a b) = gcd b a /\ gcd 3 (-3) = -3 /\ gcd (-3) 3 = 3.
Proof.
  split; [|split; reflexivity].
  funelim (eGcd a b).
  - subst a. rewrite gcd_zero. reflexivity.
  - cbn [EGcd.g]. rewrite H, (gcd_step b a) by assumption. reflexivity.
Qed.
